(** * train.py: training orchestration and checkpoint life cycle

    A shallow embedding of [src/train.py]: the per-parameter weight
    initialisation, the optimizer selection, the weight transplant
    ([--load_weights]), the full resume ([--continue_model]), the training
    loop with its gradient-update dispatch, the periodic validation with the
    two best-metric trackers, the periodic checkpoint, and the label-smoothed
    loss [transformer_loss].

    Conventions.
    - Python [int]s are [Z]; [%] on them is [Z.modulo] (both floor, the sign
      of the divisor), and a zero divisor raises [ZeroDivisionError].
    - The finite floats that the control flow compares (the two validation
      metrics and their running bests) are the rationals they denote, in [Q]:
      [<] and [>] on finite floats are exact.
    - Arithmetic inside the loss is over the reals [R]; rounding is not
      modelled.
    - A Python [dict] with string keys is a [gmap string _]; the checkpoint
      dict, whose keys are fixed by the program, is a record of optional
      fields, [None] standing for an absent key.
    - Exceptions are values of [exn]; code that may raise returns a
      [result], and the training loop threads its state through a small
      state-and-exception monad that keeps the state reached when an
      exception escapes. *)

From Stdlib Require Import ZArith QArith Reals Lra Lia List Bool.
From stdpp Require Import base option strings gmap list fin_maps pretty.

Local Open Scope Z_scope.

(** ** Exceptions and results *)

Inductive exn : Type :=
| KeyError (key : string)
| FileNotFoundError (path : string)
| RuntimeError
| TypeError
| ZeroDivisionError
| UnboundLocalError (var : string).

Inductive result (A : Type) : Type :=
| Ok (a : A)
| Raise (e : exn).
Arguments Ok {A} a.
Arguments Raise {A} e.

(** ** Strings: Python's [needle in haystack] *)

Fixpoint is_prefix (p s : string) : bool :=
  match p, s with
  | EmptyString, _ => true
  | String a p', String b s' => if Ascii.eqb a b then is_prefix p' s' else false
  | String _ _, EmptyString => false
  end.

Fixpoint str_in (needle hay : string) : bool :=
  is_prefix needle hay ||
  match hay with
  | EmptyString => false
  | String _ hay' => str_in needle hay'
  end.

(** ** Tensors, the model and its state dict *)

(** A tensor: its [size()] and its entries in row-major order. *)
Record tensor : Type := Tensor {
  size : list nat;
  data : list Q
}.

Definition numel (t : tensor) : nat := fold_right Nat.mul 1%nat (size t).

(** [init.constant_(param, c)] and [param.data.fill_(c)]. *)
Definition fill_ (t : tensor) (c : Q) : tensor :=
  Tensor (size t) (repeat c (numel t)).

(** The model is its named parameters, in registration order. *)
Definition model : Type := list (string * tensor).

(** [model.state_dict()]. *)
Definition get_state_dict (m : model) : gmap string tensor := list_to_map m.

(** [model.load_state_dict(sd)] is strict: every entry of the model needs an
    entry of [sd] of the same size, and [sd] may hold no other key;
    otherwise it raises [RuntimeError]. What the parameters hold after a
    rejected load is not modelled (torch has copied the entries that match
    by then). *)
Definition entry_matches (sd : gmap string tensor) (e : string * tensor) : bool :=
  match sd !! e.1 with
  | Some v => bool_decide (size v = size e.2)
  | None => false
  end.

Definition known_key (m : model) (k : string) : bool :=
  bool_decide (k ∈ m.*1).

Definition load_state_dict (m : model) (sd : gmap string tensor) : result model :=
  if forallb (entry_matches sd) m && forallb (known_key m) (map fst (map_to_list sd))
  then Ok ((λ e : string * tensor, (e.1, default e.2 (sd !! e.1))) <$> m)
  else Raise RuntimeError.

(** ** External collaborators

    The network, the data provider, the random generator behind the
    initialiser, the optimizer's update rule and the validation routine are
    opaque to [train]; they are the fields of this interface. *)

Class Externals : Type := {
  (** the state of torch's random generator *)
  rng : Type;
  (** [init.kaiming_normal_(param)]: the filled tensor or the exception it
      raises, and the generator afterwards *)
  kaiming_normal_ : rng → tensor → result tensor * rng;
  (** gradients held by the parameters after [cost.backward()] *)
  grads : Type;
  (** batch, encoding, forward pass, loss, [zero_grad] and [backward] of
      iteration [i] *)
  backward : Z → model → grads;
  (** [torch.nn.utils.clip_grad_norm_(model.parameters(), max_norm)] *)
  clip_grad_norm_ : Q → grads → grads;
  (** the optimizer's accumulators, [optimizer.state_dict()] *)
  optim_state : Type;
  fresh_state : optim_state;
  (** [optimizer.step()], under the learning rate the warmup schedule set
      for its step count when there is one *)
  optimizer_step : option Z → grads → model → optim_state → model * optim_state;
  (** [validation(model, criterion, valid_loader, converter, opt)] at
      iteration [i]: current accuracy and current normalised edit distance *)
  validation : Z → model → Q * Q
}.

(** ** Weight initialisation (train, lines 97-110) *)

Section Initialisation.
Context `{Externals}.

(** One turn of the [for name, param in model.named_parameters()] loop. *)
Definition init_param (g : rng) (name : string) (param : tensor) : tensor * rng :=
  if str_in "localization_fc2" name then (param, g)
  else
    let attempt : result tensor * rng :=
      if str_in "bias" name then (Ok (fill_ param 0), g)
      else if str_in "weight" name then kaiming_normal_ g param
      else (Ok param, g) in
    match attempt with
    | (Ok param', g') => (param', g')
    | (Raise _, g') =>
        if str_in "weight" name then (fill_ param 1, g') else (param, g')
    end.

Fixpoint init_weights (g : rng) (params : model) : model * rng :=
  match params with
  | [] => ([], g)
  | (name, param) :: rest =>
      let '(param', g') := init_param g name param in
      let '(rest', g'') := init_weights g' rest in
      ((name, param') :: rest', g'')
  end.
End Initialisation.

(** The initialisation policy in the words of the specification: skip the
    parameters marked as already initialised; else zero the biases; else
    give the weights the Kaiming-normal values; when that scheme raises,
    fill with one and go on; leave every other parameter alone. *)
Definition init_policy `{Externals} (g : rng) (name : string) (param : tensor) : tensor :=
  if str_in "localization_fc2" name then param
  else if str_in "bias" name then fill_ param 0
  else if str_in "weight" name then
    match (kaiming_normal_ g param).1 with
    | Ok filled => filled
    | Raise _ => fill_ param 1
    end
  else param.

(** ** Options ([opt]) *)

Record options : Type := Options {
  experiment_name : string;
  SequenceModeling : string;
  Prediction : string;
  adam : bool;
  use_scheduled_optim : bool;
  lr : Q;
  beta1 : Q;
  rho : Q;
  eps : Q;
  grad_clip : Q;
  d_model : Z;
  n_warmup_steps : Z;
  load_weights : string;
  continue_model : string;
  num_iter : Z;
  valInterval : Z
}.

(** The defaults of the argument parser, with the architecture that
    [__main__] fixes before it calls [train]. *)
Definition default_options : options := {|
  experiment_name := "demo";
  SequenceModeling := "Transformer";
  Prediction := "None";
  adam := false;
  use_scheduled_optim := false;
  lr := 1;
  beta1 := 9 # 10;
  rho := 95 # 100;
  eps := 1 # 100000000;
  grad_clip := 5;
  d_model := 512;
  n_warmup_steps := 16000;
  load_weights := "";
  continue_model := "";
  num_iter := 300000;
  valInterval := 10
|}.

(** ['Transformer' in opt.SequenceModeling and opt.use_scheduled_optim] *)
Definition warmup_path (opt : options) : bool :=
  str_in "Transformer" (SequenceModeling opt) && use_scheduled_optim opt.

(** ** Optimizer and warmup scheduler *)

Inductive optimizer_kind : Type :=
| Adam (lr : Q) (betas : Q * Q) (eps : Q)
| Adadelta (lr rho eps : Q).

Section Objects.
Context `{Externals}.

(** The [optimizer] object. [n_current_steps] is the attribute that line 205
    assigns on it; a fresh optimizer has none. *)
Record optimizer : Type := Optimizer {
  kind : optimizer_kind;
  state : optim_state;
  n_current_steps : option Z
}.

(** Modelled from the spec: class [ScheduledOptim] of module [Optim], which
    is not under src/. The warmup scheduler wraps the optimizer it was built
    on (the one object bound to [optimizer], which it holds by reference),
    keeps [d_model] and [n_warmup_steps], and has an internal step counter
    that starts at zero. *)
Record ScheduledOptim : Type := mkScheduledOptim {
  sched_d_model : Z;
  sched_n_warmup_steps : Z;
  sched_n_current_steps : Z
}.

(** Lines 132-143. The second component is the binding of the local name
    [optimizer_schedule]: [None] when no branch assigned it. *)
Definition setup_optimizer (opt : options) : optimizer * option ScheduledOptim :=
  if adam opt then
    (Optimizer (Adam (lr opt) (beta1 opt, 999 # 1000) (1 # 100000000)) fresh_state None,
     None)
  else if warmup_path opt then
    (Optimizer (Adam (1 # 1000) (9 # 10, 98 # 100) (1 # 1000000000)) fresh_state None,
     Some (mkScheduledOptim (d_model opt) (n_warmup_steps opt) 0))
  else
    (Optimizer (Adadelta (lr opt) (rho opt) (eps opt)) fresh_state None, None).

(** ** Checkpoints and the file system *)

(** The dict handed to [save_checkpoint] and returned by [torch.load]: keys
    [state_dict], [optimizer], [step], [best_accuracy], [best_norm_ED]. *)
Record checkpoint : Type := Checkpoint {
  ck_state_dict : option (gmap string tensor);
  ck_optimizer : option optim_state;
  ck_step : option Z;
  ck_best_accuracy : option Q;
  ck_best_norm_ED : option Q
}.

(** What [torch.load] returns for a file: a [dict] as above, or a bare
    parameter map (an [OrderedDict], whose type is not [dict]). *)
Inductive saved_file : Type :=
| FileDict (c : checkpoint)
| FileStateDict (sd : gmap string tensor).

(** ** Trace of the observable calls, in the order they are made *)

(** [Iteration i]: the body of the loop was entered for [i] (batch, forward
    pass, loss and [backward] follow at once);
    [ClipGradNorm c]: [clip_grad_norm_(model.parameters(), c)];
    [OptimizerStep]: [optimizer.step()];
    [StepAndUpdateLr n]: [optimizer_schedule.step_and_update_lr()], which
    made the scheduler's counter [n];
    [Validation i acc ed]: the validation cycle after the step of iteration
    [i], and its two metrics;
    [SaveCheckpoint fpath c]: [save_checkpoint(c, False, fpath)]. *)
Inductive event : Type :=
| Iteration (i : Z)
| ClipGradNorm (max_norm : Q)
| OptimizerStep
| StepAndUpdateLr (n : Z)
| Validation (i : Z) (current_accuracy current_norm_ED : Q)
| SaveCheckpoint (fpath : string) (c : checkpoint).

(** ** The state of [train]: its local variables, the files and the trace *)

Record train_state : Type := TrainState {
  st_model : model;
  st_optimizer : optimizer;
  st_optimizer_schedule : option ScheduledOptim;
  st_start_iter : Z;
  st_best_accuracy : Q;
  st_best_norm_ED : Q;
  st_files : gmap string saved_file;
  st_trace : list event
}.

End Objects.

(** ** The state-and-exception monad of [train] *)

Section Monad.
Context `{Externals}.

Definition M (A : Type) : Type := train_state → result A * train_state.

Definition ret {A} (a : A) : M A := λ st, (Ok a, st).

Definition bind {A B} (c : M A) (k : A → M B) : M B :=
  λ st, match c st with
        | (Ok a, st') => k a st'
        | (Raise e, st') => (Raise e, st')
        end.

Definition raise {A} (e : exn) : M A := λ st, (Raise e, st).

Definition lift {A} (r : result A) : M A := λ st, (r, st).

Definition get : M train_state := λ st, (Ok st, st).

Definition modify (f : train_state → train_state) : M unit := λ st, (Ok tt, f st).

End Monad.

Notation "'let*' x := c 'in' k" := (bind c (λ x, k))
  (at level 10, x name, c at level 100, k at level 200).
Notation "c ;; k" := (bind c (λ _, k))
  (at level 100, k at level 200, right associativity).

Section Train.
Context `{Externals}.

(** *** Assignments to the local variables *)

Definition set_model (m : model) (st : train_state) : train_state :=
  TrainState m (st_optimizer st) (st_optimizer_schedule st) (st_start_iter st)
    (st_best_accuracy st) (st_best_norm_ED st) (st_files st) (st_trace st).

Definition set_optimizer (o : optimizer) (st : train_state) : train_state :=
  TrainState (st_model st) o (st_optimizer_schedule st) (st_start_iter st)
    (st_best_accuracy st) (st_best_norm_ED st) (st_files st) (st_trace st).

Definition set_optimizer_schedule (s : option ScheduledOptim) (st : train_state)
  : train_state :=
  TrainState (st_model st) (st_optimizer st) s (st_start_iter st)
    (st_best_accuracy st) (st_best_norm_ED st) (st_files st) (st_trace st).

Definition set_start_iter (i : Z) (st : train_state) : train_state :=
  TrainState (st_model st) (st_optimizer st) (st_optimizer_schedule st) i
    (st_best_accuracy st) (st_best_norm_ED st) (st_files st) (st_trace st).

Definition set_best_accuracy (a : Q) (st : train_state) : train_state :=
  TrainState (st_model st) (st_optimizer st) (st_optimizer_schedule st)
    (st_start_iter st) a (st_best_norm_ED st) (st_files st) (st_trace st).

Definition set_best_norm_ED (d : Q) (st : train_state) : train_state :=
  TrainState (st_model st) (st_optimizer st) (st_optimizer_schedule st)
    (st_start_iter st) (st_best_accuracy st) d (st_files st) (st_trace st).

Definition set_files (fs : gmap string saved_file) (st : train_state) : train_state :=
  TrainState (st_model st) (st_optimizer st) (st_optimizer_schedule st)
    (st_start_iter st) (st_best_accuracy st) (st_best_norm_ED st) fs (st_trace st).

Definition log_event (e : event) (st : train_state) : train_state :=
  TrainState (st_model st) (st_optimizer st) (st_optimizer_schedule st)
    (st_start_iter st) (st_best_accuracy st) (st_best_norm_ED st) (st_files st)
    (st_trace st ++ [e]).

(** *** Files *)

(** Modelled from the spec: [check_isfile] of module [iotools], which is not
    under src/; it tells whether a file exists at the path. *)
Definition check_isfile (fs : gmap string saved_file) (path : string) : bool :=
  bool_decide (is_Some (fs !! path)).

(** [torch.load(path)] *)
Definition torch_load (path : string) : M saved_file :=
  let* st := get in
  match st_files st !! path with
  | Some f => ret f
  | None => raise (FileNotFoundError path)
  end.

(** Modelled from the spec: [save_checkpoint(state, False, fpath)] of module
    [iotools], which is not under src/; it writes the snapshot [state] to the
    file [fpath], replacing what was there. *)
Definition save_checkpoint (c : checkpoint) (fpath : string) : M unit :=
  modify (λ st, log_event (SaveCheckpoint fpath c)
                  (set_files (<[fpath := FileDict c]> (st_files st)) st)).

(** [d[key]] on a dict where the key may be absent *)
Definition getitem {A} (key : string) (field : option A) : result A :=
  match field with
  | Some a => Ok a
  | None => Raise (KeyError key)
  end.

(** *** Weight transplant (lines 166-180) *)

(** [k in model_dict and model_dict[k].size() == v.size()] *)
Definition same_size_in (model_dict : gmap string tensor) (kv : string * tensor) : bool :=
  match model_dict !! kv.1 with
  | Some t => bool_decide (size t = size kv.2)
  | None => false
  end.

Definition transplant (m : model) (pretrain_dict : gmap string tensor) : result model :=
  let model_dict := get_state_dict m in
  let pretrain_dict := filter (λ kv, same_size_in model_dict kv) pretrain_dict in
  let model_dict := pretrain_dict ∪ model_dict in
  load_state_dict m model_dict.

Definition load_pretrained (opt : options) : M unit :=
  let* st := get in
  if negb (String.eqb (load_weights opt) "") && check_isfile (st_files st) (load_weights opt)
  then
    let* checkpoint := torch_load (load_weights opt) in
    let* pretrain_dict :=
      lift match checkpoint with
           | FileDict c => getitem "state_dict" (ck_state_dict c)
           | FileStateDict sd => Ok sd
           end in
    let* m := lift (transplant (st_model st) pretrain_dict) in
    modify (set_model m)
  else ret tt.

(** *** Full resume (lines 181-199) *)

(** [checkpoint['state_dict']] on what [torch.load] returned. On a bare
    parameter map the key is looked up among the parameter names, and a
    tensor found there is no state dict for [load_state_dict]. *)
Definition checkpoint_state_dict (f : saved_file) : result (gmap string tensor) :=
  match f with
  | FileDict c => getitem "state_dict" (ck_state_dict c)
  | FileStateDict sd =>
      match sd !! "state_dict" with
      | Some _ => Raise TypeError
      | None => Raise (KeyError "state_dict")
      end
  end.

(** The dict behind [checkpoint[...]] and [checkpoint.keys()] once
    [checkpoint['state_dict']] has been read. *)
Definition checkpoint_dict (f : saved_file) : checkpoint :=
  match f with
  | FileDict c => c
  | FileStateDict _ => Checkpoint None None None None None
  end.

Definition continue_training (opt : options) : M unit :=
  if negb (String.eqb (continue_model opt) "") then
    let* file := torch_load (continue_model opt) in
    let* sd := lift (checkpoint_state_dict file) in
    let checkpoint := checkpoint_dict file in
    let* st := get in
    let* m := lift (load_state_dict (st_model st) sd) in
    modify (set_model m) ;;
    let* step := lift (getitem "step" (ck_step checkpoint)) in
    modify (set_start_iter (step + 1)) ;;
    match ck_optimizer checkpoint with
    | Some os =>
        modify (λ st, set_optimizer
                        (Optimizer (kind (st_optimizer st)) os
                                   (n_current_steps (st_optimizer st))) st)
    | None => ret tt
    end ;;
    match ck_best_accuracy checkpoint with
    | Some a => modify (set_best_accuracy a)
    | None => ret tt
    end ;;
    match ck_best_norm_ED checkpoint with
    | Some d => modify (set_best_norm_ED d)
    | None => ret tt
    end
  else ret tt.

(** Lines 204-205: [optimizer.n_current_steps = start_iter], an attribute
    of the object bound to [optimizer]. *)
Definition set_current_steps (opt : options) : M unit :=
  if warmup_path opt then
    modify (λ st, set_optimizer
                    (Optimizer (kind (st_optimizer st)) (state (st_optimizer st))
                               (Some (st_start_iter st))) st)
  else ret tt.

(** *** One iteration of the loop (lines 208-314) *)

(** [optimizer.step()] on gradients [g]; [lr_step] is the step count the
    warmup schedule computed the learning rate from, when it did. *)
Definition do_optimizer_step (lr_step : option Z) (g : grads) : M unit :=
  modify (λ st,
    let '(m, os) := optimizer_step lr_step g (st_model st) (state (st_optimizer st)) in
    set_model m
      (set_optimizer (Optimizer (kind (st_optimizer st)) os
                                (n_current_steps (st_optimizer st))) st)).

(** Modelled from the spec: [ScheduledOptim.step_and_update_lr] of module
    [Optim], which is not under src/. It advances the scheduler's internal
    step counter, sets the learning rate that the warmup formula gives for
    that count, and steps the wrapped optimizer. *)
Definition step_and_update_lr (s : ScheduledOptim) (g : grads) : M unit :=
  let n := sched_n_current_steps s + 1 in
  modify (set_optimizer_schedule
            (Some (mkScheduledOptim (sched_d_model s) (sched_n_warmup_steps s) n))) ;;
  modify (log_event (StepAndUpdateLr n)) ;;
  do_optimizer_step (Some n) g.

(** Lines 241-248. *)
Definition update_parameters (opt : options) (g : grads) : M unit :=
  if str_in "Transformer" (SequenceModeling opt) && use_scheduled_optim opt then
    let* st := get in
    match st_optimizer_schedule st with
    | Some s => step_and_update_lr s g
    | None => raise (UnboundLocalError "optimizer_schedule")
    end
  else if str_in "Transformer" (SequenceModeling opt) then
    modify (log_event OptimizerStep) ;;
    do_optimizer_step None g
  else
    modify (log_event (ClipGradNorm (grad_clip opt))) ;;
    modify (log_event OptimizerStep) ;;
    do_optimizer_step None (clip_grad_norm_ (grad_clip opt) g).

(** [a % b == 0] on Python ints *)
Definition divides_py (a b : Z) : result bool :=
  if b =? 0 then Raise ZeroDivisionError else Ok (a mod b =? 0).

Definition Qlt_bool (x y : Q) : bool := negb (Qle_bool y x).

Definition saved_models (opt : options) (file : string) : string :=
  "./saved_models/" +:+ experiment_name opt +:+ "/" +:+ file.

(** Lines 286-298: the two best-metric trackers. *)
Definition keep_best (opt : options) (current_accuracy current_norm_ED : Q) : M unit :=
  let* st := get in
  (if Qlt_bool (st_best_accuracy st) current_accuracy then
     modify (set_best_accuracy current_accuracy) ;;
     save_checkpoint
       (Checkpoint (Some (get_state_dict (st_model st))) None None
                   (Some current_accuracy) None)
       (saved_models opt "best_accuracy.pth")
   else ret tt) ;;
  let* st := get in
  (if Qlt_bool current_norm_ED (st_best_norm_ED st) then
     modify (set_best_norm_ED current_norm_ED) ;;
     save_checkpoint
       (Checkpoint (Some (get_state_dict (st_model st))) None None
                   None (Some current_norm_ED))
       (saved_models opt "best_norm_ED.pth")
   else ret tt).

(** Lines 252-303. *)
Definition validation_part (opt : options) (i : Z) : M unit :=
  let* due :=
    lift (if 0 <? i then divides_py (i + 1) (valInterval opt) else Ok false) in
  if due : bool then
    let* st := get in
    let '(current_accuracy, current_norm_ED) := validation i (st_model st) in
    modify (log_event (Validation i current_accuracy current_norm_ED)) ;;
    keep_best opt current_accuracy current_norm_ED
  else ret tt.

(** Lines 305-314. *)
Definition periodic_save (opt : options) (i : Z) : M unit :=
  if (i + 1) mod 1000 =? 0 then
    let* st := get in
    save_checkpoint
      (Checkpoint (Some (get_state_dict (st_model st)))
                  (Some (state (st_optimizer st)))
                  (Some i)
                  (Some (st_best_accuracy st))
                  (Some (st_best_norm_ED st)))
      (saved_models opt ("iter_" +:+ pretty (i + 1) +:+ ".pth"))
  else ret tt.

Definition iteration (opt : options) (i : Z) : M unit :=
  modify (log_event (Iteration i)) ;;
  let* st := get in
  update_parameters opt (backward i (st_model st)) ;;
  validation_part opt i ;;
  periodic_save opt i.

(** [for i in range(start, start + n)] *)
Fixpoint loop (opt : options) (n : nat) (i : Z) : M unit :=
  match n with
  | O => ret tt
  | S n' => iteration opt i ;; loop opt n' (i + 1)
  end.

(** *** [train] from the optimizer setup on (lines 132-143 and 159-314)

    The dump of the options (lines 145-156), which writes every option to
    [opt.txt] and to the standard output, is left out: the files of the
    state are the checkpoints. *)

Definition initial_state (opt : options) (m : model) (fs : gmap string saved_file)
  : train_state :=
  let '(optimizer, optimizer_schedule) := setup_optimizer opt in
  TrainState m optimizer optimizer_schedule 0 (-1) 1000000 fs [].

Definition prepare (opt : options) : M unit :=
  load_pretrained opt ;;
  continue_training opt ;;
  set_current_steps opt.

Definition training_loop (opt : options) : M unit :=
  let* st := get in
  loop opt (Z.to_nat (num_iter opt - st_start_iter st)) (st_start_iter st).

Definition train (opt : options) (g : rng) (m : model) (fs : gmap string saved_file)
  : result unit * train_state :=
  (prepare opt ;; training_loop opt) (initial_state opt (init_weights g m).1 fs).

End Train.

(** ** The transformer loss (lines 41-61) *)

Section Loss.
Local Open Scope R_scope.

(** [Constants.PAD], from a module that is not under src/. *)
Variable PAD : nat.

(** [pred]: an N x K tensor, [gold]: N class indices. *)
Record tensor2 : Type := Tensor2 {
  size1 : nat;
  rows : list (list R)
}.

Definition Rsum (l : list R) : R := fold_right Rplus 0 l.

(** [t.mean()] of a selection that is not empty. On no element torch gives
    nan, which is no real number; the quotient by [INR 0] stands in its
    place, and a statement about the value of a loss is for a batch with a
    position that counts. *)
Definition mean (l : list R) : R := Rsum l / INR (length l).

(** [F.log_softmax(pred, dim=1)] on one row *)
Definition log_softmax (row : list R) : list R :=
  let lse := ln (Rsum (map exp row)) in
  map (λ x, x - lse) row.

(** One row of [torch.zeros_like(pred).scatter(1, gold.view(-1, 1), 1)] *)
Definition one_hot_row (K t : nat) : list R :=
  map (λ j, if Nat.eqb j t then 1 else 0) (seq 0 K).

(** [loss.masked_select(mask)] *)
Fixpoint masked_select (l : list R) (mask : list bool) : list R :=
  match l, mask with
  | x :: l', b :: mask' =>
      if b then x :: masked_select l' mask' else masked_select l' mask'
  | _, _ => []
  end.

(** [(a * b).sum(dim=1)] on one row *)
Definition dot (a b : list R) : R := Rsum (zip_with Rmult a b).

(** [gold] and [pred] disagree on N, or an index that is looked up is not a
    class: the indexing raises. [skip] is the index that is never looked
    up, if there is one. The kinds of exception of torch are not told apart
    here, and a [gold] of another length than [pred] is taken to raise on
    both branches (the smoothed branch of torch scatters a shorter index);
    the statements about the loss are for one target per row. *)
Definition bad_targets (K N : nat) (skip : option nat) (gold : list nat) : bool :=
  negb (Nat.eqb (length gold) N)
  || existsb (λ t, negb (bool_decide (skip = Some t)) && Nat.leb K t) gold.

(** [F.cross_entropy(pred, gold, ignore_index=PAD, reduction='mean')] of
    torch: the mean, over the positions whose target is not [ignore_index],
    of minus the log-probability of the target. *)
Definition cross_entropy (pred : tensor2) (gold : list nat) (ignore_index : nat)
  : result R :=
  if bad_targets (size1 pred) (length (rows pred)) (Some ignore_index) gold
  then Raise RuntimeError
  else
    let nll := zip_with (λ row t, - nth t (log_softmax row) 0) (rows pred) gold in
    Ok (mean (masked_select nll (map (λ t, negb (Nat.eqb t ignore_index)) gold))).

Definition transformer_loss (pred : tensor2) (gold : list nat) (smoothing : bool)
  : result R :=
  if smoothing then
    if bad_targets (size1 pred) (length (rows pred)) None gold then Raise RuntimeError
    else
      let eps := 1 / 10 in
      let n_class := size1 pred in
      let one_hot := map (one_hot_row n_class) gold in
      let one_hot :=
        map (map (λ o, o * (1 - eps) + (1 - o) * eps / (INR n_class - 1))) one_hot in
      let log_prb := map log_softmax (rows pred) in
      let non_pad_mask := map (λ t, negb (Nat.eqb t PAD)) gold in
      let loss := zip_with (λ oh lp, - dot oh lp) one_hot log_prb in
      Ok (mean (masked_select loss non_pad_mask))
  else cross_entropy pred gold PAD.

(** The closed form of the specification for one position: with [logp] the
    log-softmax of the row and [t] its target,
    [-(1-eps)*logp[t] - (eps/(K-1)) * sum_{j<>t} logp[j]]. *)
Definition smoothed_term (eps : R) (K : nat) (logp : list R) (t : nat) : R :=
  - (1 - eps) * nth t logp 0
  - (eps / (INR K - 1))
    * Rsum (map (λ j, nth j logp 0) (filter (λ j, j ≠ t) (seq 0 K))).

End Loss.

(** ** A small concrete world, for running the definitions

    The generator state counts the draws; [kaiming_normal_] refuses tensors
    of fewer than two dimensions, as torch's fan computation does, and fills
    the others with one half; an optimizer step leaves the parameters alone
    and counts itself in the optimizer state; the validation results are
    read off a table indexed by the iteration. *)

Definition toy (val : Z → Q * Q) : Externals := {|
  rng := nat;
  kaiming_normal_ := λ g t,
    if Nat.ltb (length (size t)) 2 then (Raise RuntimeError, g)
    else (Ok (fill_ t (1 # 2)), S g);
  grads := unit;
  backward := λ _ _, tt;
  clip_grad_norm_ := λ _ g, g;
  optim_state := Z;
  fresh_state := 0;
  optimizer_step := λ _ _ m s, (m, s + 1);
  validation := λ i _, val i
|}.

(** A model of three parameters: a convolution weight, its bias and a
    normalisation weight. *)
Definition toy_model : model :=
  [ ("conv.weight", Tensor [2; 2]%nat [1; 2; 3; 4]%Q);
    ("conv.bias", Tensor [2]%nat [7; 7]%Q);
    ("bn.weight", Tensor [2]%nat [3; 3]%Q) ].

(** Validation results of a run whose accuracies are 0.5, 0.6, 0.55, 0.7 at
    the four validations of [valInterval = 10], [num_iter = 40]. *)
Definition accuracies_run (i : Z) : Q * Q :=
  if i =? 9 then (5 # 10, 4 # 10)
  else if i =? 19 then (6 # 10, 5 # 10)
  else if i =? 29 then (55 # 100, 3 # 10)
  else (7 # 10, 3 # 10).

(** ** Definitions for the statements: readings of the trace and of the
    state, and concrete inputs *)

(** What the transplant leaves under each name: the checkpoint's tensor when
    the model has the name with the same size, the model's own otherwise. *)
Definition transplanted (m : model) (pretrain_dict : gmap string tensor) (k : string)
  : option tensor :=
  match get_state_dict m !! k with
  | Some t =>
      match pretrain_dict !! k with
      | Some v => if bool_decide (size t = size v) then Some v else Some t
      | None => Some t
      end
  | None => None
  end.

(** The parameter map of a file for the transplant: the one under the
    [state_dict] key of a dict, or the bare map itself. *)
Definition file_state_dict `{Externals} (f : saved_file) : option (gmap string tensor) :=
  match f with
  | FileDict c => ck_state_dict c
  | FileStateDict sd => Some sd
  end.

(** A checkpoint for the toy model: one tensor of the right name and size,
    one of the right name and another size, one of an unknown name. *)
Definition toy_pretrained : gmap string tensor :=
  {[ "conv.weight" := Tensor [2; 2]%nat [9; 9; 9; 9]%Q;
     "conv.bias" := Tensor [3]%nat [1; 1; 1]%Q;
     "head.weight" := Tensor [2]%nat [5; 5]%Q ]}.

(** Options of a plain Transformer run of the toy world: the weights file,
    the resume file, [num_iter] and [valInterval]. *)
Definition toy_options (load continue_ : string) (iters interval : Z) : options :=
  Options "demo" "Transformer" "None" false false 1 (9 # 10) (95 # 100)
          (1 # 100000000) 5 512 16000 load continue_ iters interval.

(** The state of the toy world after the optimizer setup, on the files
    [fs]. *)
Definition toy_state (val : Z → Q * Q) (opt : options)
    (fs : gmap string (@saved_file (toy val))) : @train_state (toy val) :=
  @initial_state (toy val) opt toy_model fs.

(** The state a successful resume leaves: the loaded parameters, the
    checkpoint's step plus one, and each optional field of the checkpoint
    when it is there, the former value of the variable when it is not. *)
Definition resumed `{Externals} (st : train_state) (m' : model) (s : Z) (c : checkpoint)
  : train_state :=
  TrainState m'
    (Optimizer (kind (st_optimizer st))
               (default (state (st_optimizer st)) (ck_optimizer c))
               (n_current_steps (st_optimizer st)))
    (st_optimizer_schedule st)
    (s + 1)
    (default (st_best_accuracy st) (ck_best_accuracy c))
    (default (st_best_norm_ED st) (ck_best_norm_ED c))
    (st_files st)
    (st_trace st).

(** [c] takes every state to an [R]-related one, whether it returns or
    raises. *)
Definition preserves `{Externals} (R : relation train_state) {A} (c : M A) : Prop :=
  ∀ st, R st (c st).2.

(** The trace only grows. *)
Definition trace_grows `{Externals} : relation train_state :=
  λ st st', ∃ evs, st_trace st' = st_trace st ++ evs.

(** The best accuracy only grows and the best edit distance only shrinks. *)
Definition bests_improve `{Externals} : relation train_state :=
  λ st st', (st_best_accuracy st <= st_best_accuracy st')%Q ∧
            (st_best_norm_ED st' <= st_best_norm_ED st)%Q.

(** The snapshot of lines 290-291 ... *)
Definition best_accuracy_checkpoint `{Externals} (m : model) (acc : Q) : checkpoint :=
  Checkpoint (Some (get_state_dict m)) None None (Some acc) None.

(** ... and of lines 296-297. *)
Definition best_norm_ED_checkpoint `{Externals} (m : model) (ed : Q) : checkpoint :=
  Checkpoint (Some (get_state_dict m)) None None None (Some ed).

(** The state once [c] has been written to [fpath]. *)
Definition written `{Externals} (fpath : string) (c : checkpoint) (st : train_state)
  : train_state :=
  log_event (SaveCheckpoint fpath c) (set_files (<[fpath := FileDict c]> (st_files st)) st).

(** The state after lines 287-292 ... *)
Definition track_accuracy `{Externals} (opt : options) (acc : Q) (st : train_state)
  : train_state :=
  if Qlt_bool (st_best_accuracy st) acc then
    written (saved_models opt "best_accuracy.pth")
            (best_accuracy_checkpoint (st_model st) acc) (set_best_accuracy acc st)
  else st.

(** ... and after lines 293-298. *)
Definition track_norm_ED `{Externals} (opt : options) (ed : Q) (st : train_state)
  : train_state :=
  if Qlt_bool ed (st_best_norm_ED st) then
    written (saved_models opt "best_norm_ED.pth")
            (best_norm_ED_checkpoint (st_model st) ed) (set_best_norm_ED ed st)
  else st.

(** The checkpoints that a trace writes to [fpath], in order. *)
Definition saves_to `{Externals} (fpath : string) (tr : list event) : list checkpoint :=
  omap (λ e, match e with
             | SaveCheckpoint p c => if String.eqb p fpath then Some c else None
             | _ => None
             end) tr.

(** The validation cycles of a trace: iteration and current accuracy. *)
Definition validations `{Externals} (tr : list event) : list (Z * Q) :=
  omap (λ e, match e with
             | Validation i acc _ => Some (i, acc)
             | _ => None
             end) tr.

(** The local name [optimizer_schedule] is bound whenever the loop takes the
    warmup branch. *)
Definition schedule_bound `{Externals} (opt : options) (st : train_state) : Prop :=
  warmup_path opt = true → is_Some (st_optimizer_schedule st).

(** The calls of one gradient update, by branch of lines 241-248. *)
Definition update_events `{Externals} (opt : options) (sched : option ScheduledOptim)
  : list event :=
  if str_in "Transformer" (SequenceModeling opt) && use_scheduled_optim opt then
    match sched with
    | Some s => [StepAndUpdateLr (sched_n_current_steps s + 1)]
    | None => []
    end
  else if str_in "Transformer" (SequenceModeling opt) then [OptimizerStep]
  else [ClipGradNorm (grad_clip opt); OptimizerStep].

(** [i > 0 and (i+1) % opt.valInterval == 0], for a non-zero interval *)
Definition validation_due (opt : options) (i : Z) : bool :=
  (0 <? i) && ((i + 1) mod valInterval opt =? 0).

(** A run of the toy world from scratch. *)
Definition toy_run (val : Z → Q * Q) (opt : options)
  : result unit * @train_state (toy val) :=
  @train (toy val) opt 0%nat toy_model ∅.

(** The files that a first toy run of 1000 iterations leaves. *)
Definition toy_files_1000 : gmap string (@saved_file (toy accuracies_run)) :=
  st_files (toy_run accuracies_run (toy_options "" "" 1000 10)).2.

(** The periodic checkpoint that the first run wrote after iteration 999. *)
Definition toy_iter_1000 : @checkpoint (toy accuracies_run) :=
  Checkpoint (Some (get_state_dict (@init_weights (toy accuracies_run) 0%nat toy_model).1))
             (Some (1000 : @optim_state (toy accuracies_run)))
             (Some 999) (Some (7 # 10)%Q) (Some (3 # 10)%Q).

(** A file system with one checkpoint dict at [ckpt.pth]. *)
Definition toy_one_file (val : Z → Q * Q) (c : @checkpoint (toy val))
  : gmap string (@saved_file (toy val)) :=
  {[ "ckpt.pth" := FileDict c ]}.

(** The scheduler object is left as it is. *)
Definition same_schedule `{Externals} : relation train_state :=
  λ st st', st_optimizer_schedule st' = st_optimizer_schedule st.

(** Options of a Transformer run of the toy world with the warmup flag set:
    the [--adam] flag, the resume file and [num_iter]. *)
Definition toy_warmup_options (adam_ : bool) (continue_ : string) (iters : Z) : options :=
  Options "demo" "Transformer" "None" adam_ true 1 (9 # 10) (95 # 100)
          (1 # 100000000) 5 512 16000 "" continue_ iters 10.

(** The files that a toy run of 30 iterations leaves. *)
Definition toy_files_30 : gmap string (@saved_file (toy accuracies_run)) :=
  st_files (toy_run accuracies_run (toy_options "" "" 30 10)).2.

(** The best-accuracy checkpoint among them. *)
Definition toy_best_accuracy : @checkpoint (toy accuracies_run) :=
  Checkpoint (Some (get_state_dict (@init_weights (toy accuracies_run) 0%nat toy_model).1))
             None None (Some (6 # 10)%Q) None.

(** Three classes, two positions, the padding index 0 not among the
    targets. *)
Definition toy_pred : tensor2 := Tensor2 3 [[1; 2; 3]; [0; 3; 1]]%R.

(** ** Further readings of the trace *)

(** The iterations that a trace entered, in order. *)
Definition iterations `{Externals} (tr : list event) : list Z :=
  omap (λ e, match e with Iteration i => Some i | _ => None end) tr.

(** The full checkpoints that a trace wrote, in order: the file and the step
    it holds. The best-metric snapshots hold no step and are not listed. *)
Definition periodic_saves `{Externals} (tr : list event) : list (string * Z) :=
  omap (λ e, match e with
             | SaveCheckpoint fpath c => (λ s, (fpath, s)) <$> ck_step c
             | _ => None
             end) tr.

(** The file of the periodic checkpoint of iteration [i] (line 314). *)
Definition periodic_path (opt : options) (i : Z) : string :=
  saved_models opt ("iter_" +:+ pretty (i + 1) +:+ ".pth").

(** The dict of the periodic checkpoint of iteration [i] (lines 309-313). *)
Definition periodic_checkpoint `{Externals} (i : Z) (st : train_state) : checkpoint :=
  Checkpoint (Some (get_state_dict (st_model st)))
             (Some (state (st_optimizer st)))
             (Some i)
             (Some (st_best_accuracy st))
             (Some (st_best_norm_ED st)).

(** What the validation part of an iteration appends to the trace when it is
    due: the validation, then the writes of the trackers. *)
Definition validation_events `{Externals} (opt : options) (i : Z) (st : train_state)
  : list event :=
  let ve := validation i (st_model st) in
  Validation i ve.1 ve.2
  :: (if Qlt_bool (st_best_accuracy st) ve.1
      then [SaveCheckpoint (saved_models opt "best_accuracy.pth")
              (best_accuracy_checkpoint (st_model st) ve.1)]
      else [])
  ++ (if Qlt_bool ve.2 (st_best_norm_ED st)
      then [SaveCheckpoint (saved_models opt "best_norm_ED.pth")
              (best_norm_ED_checkpoint (st_model st) ve.2)]
      else []).

(** ** Relations on states for the trackers *)

(** The bests bound every validation that the trace gained: no validated
    accuracy is above the best accuracy, no validated edit distance below
    the best edit distance. *)
Definition bests_bound `{Externals} : relation train_state :=
  λ st st', bests_improve st st' ∧
    ∃ evs, st_trace st' = st_trace st ++ evs ∧
           Forall (λ e, match e with
                        | Validation _ acc ed =>
                            (acc <= st_best_accuracy st')%Q ∧ (st_best_norm_ED st' <= ed)%Q
                        | _ => True
                        end) evs.

(** The best accuracy is the former one or one that the trace gained, and so
    is the best edit distance. *)
Definition bests_attained `{Externals} : relation train_state :=
  λ st st', ∃ evs, st_trace st' = st_trace st ++ evs ∧
    (st_best_accuracy st' = st_best_accuracy st ∨
     ∃ i ed, Validation i (st_best_accuracy st') ed ∈ evs) ∧
    (st_best_norm_ED st' = st_best_norm_ED st ∨
     ∃ i acc, Validation i acc (st_best_norm_ED st') ∈ evs).

(** The file [best_accuracy.pth] and the variable [best_accuracy] move
    together: either both are as before, or the file holds a weights-only
    snapshot whose accuracy is the variable's value. *)
Definition accuracy_file_in_step `{Externals} (opt : options) : relation train_state :=
  λ st st',
    (st_files st' !! saved_models opt "best_accuracy.pth"
       = st_files st !! saved_models opt "best_accuracy.pth" ∧
     st_best_accuracy st' = st_best_accuracy st) ∨
    (∃ sd, st_files st' !! saved_models opt "best_accuracy.pth"
           = Some (FileDict (Checkpoint (Some sd) None None
                                        (Some (st_best_accuracy st')) None))).

(** The same for [best_norm_ED.pth] and [best_norm_ED]. *)
Definition norm_ED_file_in_step `{Externals} (opt : options) : relation train_state :=
  λ st st',
    (st_files st' !! saved_models opt "best_norm_ED.pth"
       = st_files st !! saved_models opt "best_norm_ED.pth" ∧
     st_best_norm_ED st' = st_best_norm_ED st) ∨
    (∃ sd, st_files st' !! saved_models opt "best_norm_ED.pth"
           = Some (FileDict (Checkpoint (Some sd) None None
                                        None (Some (st_best_norm_ED st'))))).

(** ** Readings of the transplant *)

(** The tensor that the transplant leaves for one entry of the model: the
    checkpoint's when it has the name with the same size, the entry's own
    otherwise. *)
Definition transplant_entry (pretrain_dict : gmap string tensor) (e : string * tensor)
  : tensor :=
  match pretrain_dict !! e.1 with
  | Some v => if bool_decide (size e.2 = size v) then v else e.2
  | None => e.2
  end.

(** Two models with the same names in the same order and the same sizes. *)
Definition same_shape (m m' : model) : Prop :=
  Forall2 (λ old new : string * tensor, new.1 = old.1 ∧ size new.2 = size old.2) m m'.

(** A parameter map with the three names and sizes of the toy model. *)
Definition toy_full_dict : gmap string tensor :=
  {[ "conv.weight" := Tensor [2; 2]%nat [8; 8; 8; 8]%Q;
     "conv.bias" := Tensor [2]%nat [6; 6]%Q;
     "bn.weight" := Tensor [2]%nat [2; 2]%Q ]}.

(** ** What the loop depends on *)





(** The loop leaves the kind of the optimizer and its extra attribute as
    they are. *)
Definition same_optimizer_frame `{Externals} : relation train_state :=
  λ st st', kind (st_optimizer st') = kind (st_optimizer st) ∧
            n_current_steps (st_optimizer st') = n_current_steps (st_optimizer st).

(** ** Readings of the loss *)

(** The entries of [l] at the positions where [mask] holds. *)
Fixpoint keep_where {A} (l : list A) (mask : list bool) : list A :=
  match l, mask with
  | x :: l', b :: mask' => if b then x :: keep_where l' mask' else keep_where l' mask'
  | _, _ => []
  end.

(** [gold.ne(Constants.PAD)] *)
Definition non_pad (PAD : nat) (gold : list nat) : list bool :=
  map (λ t, negb (Nat.eqb t PAD)) gold.

(** The batch without the positions whose target is the padding index. *)
Definition without_padding (PAD : nat) (pred : tensor2) (gold : list nat)
  : tensor2 * list nat :=
  (Tensor2 (size1 pred) (keep_where (rows pred) (non_pad PAD gold)),
   keep_where gold (non_pad PAD gold)).

(** ** The sample lines of the validation log (lines 269-279) *)

(** [s.find(sub)]: the lowest index at which [sub] occurs in [s], [-1] when
    it does not occur. *)
Fixpoint str_find (sub s : string) : Z :=
  if is_prefix sub s then 0
  else match s with
       | EmptyString => -1
       | String _ s' => let r := str_find sub s' in if r <? 0 then -1 else r + 1
       end.

(** The first [n] characters of [s], all of [s] when it is shorter. *)
Fixpoint take_chars (n : nat) (s : string) : string :=
  match n, s with
  | S n', String c s' => String c (take_chars n' s')
  | _, _ => EmptyString
  end.

(** [s[:stop]]: a negative [stop] counts from the end, and a bound out of
    range is clamped. *)
Definition slice_to (s : string) (stop : Z) : string :=
  let len := Z.of_nat (String.length s) in
  let stop := if stop <? 0 then Z.max 0 (stop + len) else Z.min stop len in
  take_chars (Z.to_nat stop) s.

(** [s[:s.find(term)]] *)
Definition cut_at (term s : string) : string := slice_to s (str_find term s).

(** The text as the log shows it (lines 270-275). *)
Definition shown (opt : options) (text : string) : string :=
  if str_in "Transformer" (SequenceModeling opt) then cut_at "</s>" text
  else if str_in "Attn" (Prediction opt) then cut_at "[s]" text
  else text.

(** [f'{s:20s}']: left-aligned, filled with spaces up to the width. *)
Fixpoint spaces (n : nat) : string :=
  match n with
  | O => EmptyString
  | S n' => String Ascii.Space (spaces n')
  end.

Definition ljust (width : nat) (s : string) : string :=
  s +:+ spaces (width - String.length s).

(** One line of lines 277-279. *)
Definition sample_line (opt : options) (pred gt : string) : string :=
  let pred := shown opt pred in
  let gt := shown opt gt in
  ljust 20 pred +:+ ", gt: " +:+ ljust 20 gt +:+ ",   "
  +:+ (if String.eqb pred gt then "True" else "False").

(** The lines for [zip(preds[:5], gts[:5])]. *)
Definition sample_lines (opt : options) (preds gts : list string) : list string :=
  zip_with (sample_line opt) (take 5 preds) (take 5 gts).

(** ** The command line (lines 317-460) *)

(** Lines 406-419: what [__main__] assigns on the parsed options before it
    calls [train(opt)], on the fields that [train] reads. *)
Definition main_overrides (parsed : options) : options :=
  Options "demo" "Transformer" "None" (adam parsed) (use_scheduled_optim parsed)
          (lr parsed) (beta1 parsed) (rho parsed) (eps parsed) (grad_clip parsed)
          (d_model parsed) (n_warmup_steps parsed) (load_weights parsed)
          (continue_model parsed) (num_iter parsed) 10.

(** [__main__] from the parsed options on: [g] is the generator state after
    the seeding, [m] the model as constructed, [fs] the files. As [train],
    it leaves out the dump of the options (lines 146-156). *)
Definition main `{Externals} (parsed : options) (g : rng) (m : model)
    (fs : gmap string saved_file) : result unit * train_state :=
  train (main_overrides parsed) g m fs.

(** * Properties *)

(** ** Weight initialisation *)

Lemma init_param_policy `{Externals} g name param :
  (init_param g name param).1 = init_policy g name param.
Proof.
  unfold init_param, init_policy.
  destruct (str_in "localization_fc2" name); [reflexivity|].
  destruct (str_in "bias" name); [reflexivity|].
  destruct (str_in "weight" name) eqn:Hw; [|reflexivity].
  destruct (kaiming_normal_ g param) as [[filled|e] g']; simpl; [reflexivity|].
  reflexivity.
Qed.

Lemma init_weights_names `{Externals} g (m : model) :
  (init_weights g m).1.*1 = m.*1.
Proof.
  revert g. induction m as [|[name param] rest IH]; intros g; [reflexivity|].
  simpl. destruct (init_param g name param) as [param' g'].
  specialize (IH g'). destruct (init_weights g' rest) as [rest' g''].
  simpl in IH |- *. f_equal. exact IH.
Qed.

Lemma init_weights_each `{Externals} g (m : model) :
  Forall2 (λ old new, new.1 = old.1 ∧ ∃ g0, new.2 = init_policy g0 old.1 old.2)
          m (init_weights g m).1.
Proof.
  revert g. induction m as [|[name param] rest IH]; intros g; [constructor|].
  simpl. pose proof (init_param_policy g name param) as Hp.
  destruct (init_param g name param) as [param' g'].
  specialize (IH g'). destruct (init_weights g' rest) as [rest' g''].
  simpl in *. constructor; [|exact IH].
  split; [reflexivity|]. exists g. exact Hp.
Qed.

(** C9. Every parameter is initialised by the rule, in this order: a name
    with the already-initialised marker leaves the parameter unchanged;
    otherwise a bias name leaves its size and makes every entry zero;
    otherwise a weight name gives it the Kaiming-normal values, or, when
    that scheme raises, leaves its size and makes every entry one; any other
    parameter is unchanged. The loop itself never raises: it returns a
    model with the same names in the same order, each parameter being the
    outcome of the rule on the old one. *)
Theorem init_weights_rule `{Externals} :
  (∀ g name param,
     let param' := (init_param g name param).1 in
     if str_in "localization_fc2" name then param' = param
     else if str_in "bias" name then
       size param' = size param ∧
       data param' = repeat 0%Q (numel param) ∧
       Forall (λ x, x = 0%Q) (data param')
     else if str_in "weight" name then
       match (kaiming_normal_ g param).1 with
       | Ok filled => param' = filled
       | Raise _ =>
           size param' = size param ∧
           data param' = repeat 1%Q (numel param) ∧
           Forall (λ x, x = 1%Q) (data param')
       end
     else param' = param) ∧
  (∀ g m, (init_weights g m).1.*1 = m.*1) ∧
  (∀ g m, Forall2 (λ old new, new.1 = old.1 ∧
                     ∃ g0, new.2 = (init_param g0 old.1 old.2).1)
            m (init_weights g m).1).
Proof.
  split; [|split].
  - intros g name param. rewrite init_param_policy. unfold init_policy.
    destruct (str_in "localization_fc2" name); [reflexivity|].
    destruct (str_in "bias" name).
    { split; [reflexivity|]. split; [reflexivity|]. simpl.
      apply Forall_forall. intros x Hx. by apply list_elem_of_In, repeat_spec in Hx. }
    destruct (str_in "weight" name); [|reflexivity].
    destruct (kaiming_normal_ g param).1 as [filled|e]; [reflexivity|].
    split; [reflexivity|]. split; [reflexivity|]. simpl.
    apply Forall_forall. intros x Hx. by apply list_elem_of_In, repeat_spec in Hx.
  - apply init_weights_names.
  - intros g m. eapply Forall2_impl; [apply init_weights_each|].
    intros old new [Hn [g0 Hp]]. split; [exact Hn|]. exists g0.
    by rewrite init_param_policy.
Qed.

(** The rule on four parameters of the toy world: the marked one is left
    alone, the bias is zeroed, the two-dimensional weight takes the Kaiming
    values, and the one-dimensional weight, which the scheme refuses, is
    filled with one. *)
Example init_weights_toy :
  (@init_weights (toy accuracies_run) 0%nat
     [ ("localization_fc2.weight", Tensor [2]%nat [4; 4]%Q);
       ("conv.bias", Tensor [2]%nat [7; 7]%Q);
       ("conv.weight", Tensor [2; 2]%nat [1; 2; 3; 4]%Q);
       ("bn.weight", Tensor [2]%nat [3; 3]%Q) ]).1
  = [ ("localization_fc2.weight", Tensor [2]%nat [4; 4]%Q);
      ("conv.bias", Tensor [2]%nat [0; 0]%Q);
      ("conv.weight", Tensor [2; 2]%nat [1 # 2; 1 # 2; 1 # 2; 1 # 2]%Q);
      ("bn.weight", Tensor [2]%nat [1; 1]%Q) ].
Proof. reflexivity. Qed.

(** ** State dicts and the weight transplant *)

Lemma state_dict_lookup (m : model) k t :
  NoDup m.*1 → (k, t) ∈ m → get_state_dict m !! k = Some t.
Proof. intros Hnd Hin. by apply elem_of_list_to_map_1. Qed.

Lemma state_dict_key (m : model) k :
  is_Some (get_state_dict m !! k) ↔ k ∈ m.*1.
Proof.
  unfold get_state_dict. rewrite <- elem_of_dom, dom_list_to_map_L.
  by rewrite elem_of_list_to_set.
Qed.

(** The state dict of a model whose entries were rewritten name by name. *)
Lemma state_dict_rewritten (f : string → tensor → tensor) (m : model) k :
  get_state_dict ((λ e : string * tensor, (e.1, f e.1 e.2)) <$> m) !! k
  = f k <$> get_state_dict m !! k.
Proof.
  unfold get_state_dict. induction m as [|[n p] rest IH]; [done|].
  simpl. destruct (decide (n = k)) as [->|Hne].
  - by rewrite !lookup_insert_eq.
  - by rewrite !lookup_insert_ne.
Qed.

Lemma load_state_dict_ok (m : model) (sd : gmap string tensor) :
  (∀ n p, (n, p) ∈ m → ∃ v, sd !! n = Some v ∧ size v = size p) →
  (∀ k, is_Some (sd !! k) → k ∈ m.*1) →
  load_state_dict m sd
  = Ok ((λ e : string * tensor, (e.1, default e.2 (sd !! e.1))) <$> m).
Proof.
  intros Hall Hkeys. unfold load_state_dict.
  assert (forallb (entry_matches sd) m = true) as ->.
  { apply forallb_forall. intros [n p] Hin. apply list_elem_of_In in Hin.
    destruct (Hall n p Hin) as (v & Hv & Hs).
    unfold entry_matches. simpl. rewrite Hv. by apply bool_decide_eq_true. }
  assert (forallb (known_key m) (map fst (map_to_list sd)) = true) as ->.
  { apply forallb_forall. intros k Hin. apply in_map_iff in Hin.
    destruct Hin as ([k' v] & <- & Hin). apply list_elem_of_In in Hin.
    apply elem_of_map_to_list in Hin. unfold known_key.
    apply bool_decide_eq_true. apply Hkeys. simpl. eauto. }
  reflexivity.
Qed.

Lemma load_state_dict_names (m m' : model) sd :
  load_state_dict m sd = Ok m' → m'.*1 = m.*1.
Proof.
  unfold load_state_dict. case_match; [|done]. intros [= <-].
  rewrite <- list_fmap_compose. by apply list_fmap_ext.
Qed.

Lemma filter_same_size_lookup (md pre : gmap string tensor) k :
  filter (λ kv, same_size_in md kv) pre !! k
  = match pre !! k with
    | Some v => if same_size_in md (k, v) then Some v else None
    | None => None
    end.
Proof.
  destruct (pre !! k) as [v|] eqn:Hpre.
  - destruct (same_size_in md (k, v)) eqn:Hs.
    + apply map_lookup_filter_Some. split; [done|]. simpl. by rewrite Hs.
    + apply map_lookup_filter_None. right. intros v' Hv' Hkeep.
      rewrite Hpre in Hv'. injection Hv' as <-. by rewrite Hs in Hkeep.
  - apply map_lookup_filter_None. left. done.
Qed.

Lemma transplant_ok (m : model) (pretrain_dict : gmap string tensor) :
  NoDup m.*1 →
  ∃ m', transplant m pretrain_dict = Ok m' ∧ m'.*1 = m.*1 ∧
        ∀ k, get_state_dict m' !! k = transplanted m pretrain_dict k.
Proof.
  intros Hnd. unfold transplant.
  set (md := get_state_dict m).
  set (filt := filter (λ kv, same_size_in md kv) pretrain_dict).
  assert (Hlk : ∀ k, (filt ∪ md) !! k = transplanted m pretrain_dict k).
  { intros k. rewrite lookup_union. unfold filt. rewrite filter_same_size_lookup.
    unfold transplanted, same_size_in. fold md. simpl.
    destruct (pretrain_dict !! k) as [v|]; destruct (md !! k) as [t|]; simpl; try done.
    case_bool_decide; done. }
  assert (Hload : load_state_dict m (filt ∪ md)
    = Ok ((λ e : string * tensor, (e.1, default e.2 ((filt ∪ md) !! e.1))) <$> m)).
  { apply load_state_dict_ok.
    - intros n p Hin. rewrite Hlk. unfold transplanted.
      rewrite (state_dict_lookup m n p Hnd Hin).
      destruct (pretrain_dict !! n) as [v|]; [|eauto].
      case_bool_decide; eauto.
    - intros k. rewrite Hlk. unfold transplanted. intros [t Ht].
      apply state_dict_key. destruct (get_state_dict m !! k); [eauto|done]. }
  eexists. split; [exact Hload|]. split.
  - eapply load_state_dict_names, Hload.
  - intros k.
    rewrite (state_dict_rewritten (λ n p, default p ((filt ∪ md) !! n)) m k).
    rewrite Hlk. unfold transplanted.
    destruct (get_state_dict m !! k) as [t|]; simpl; [|done].
    destruct (pretrain_dict !! k) as [v|]; simpl; [|done].
    case_bool_decide; done.
Qed.

(** Unfolding the monad: a computation applied to a state is run to the
    pair of its result and its final state. *)
Ltac run :=
  unfold bind, ret, raise, lift, get, modify in *; simpl in *.

Lemma nonempty_path (path : string) : path ≠ "" → negb (String.eqb path "") = true.
Proof. intros Hne. apply negb_true_iff. by apply String.eqb_neq. Qed.

Lemma check_isfile_Some `{Externals} (fs : gmap string saved_file) path f :
  fs !! path = Some f → check_isfile fs path = true.
Proof. intros Hf. unfold check_isfile. apply bool_decide_eq_true. eauto. Qed.

Lemma load_pretrained_run `{Externals} opt st f pretrain_dict m' :
  load_weights opt ≠ "" →
  st_files st !! load_weights opt = Some f →
  file_state_dict f = Some pretrain_dict →
  transplant (st_model st) pretrain_dict = Ok m' →
  load_pretrained opt st = (Ok tt, set_model m' st).
Proof.
  intros Hne Hf Hsd Htr. unfold load_pretrained, torch_load. run.
  rewrite (nonempty_path _ Hne), (check_isfile_Some _ _ _ Hf). simpl.
  rewrite Hf. simpl.
  destruct f as [c|sd]; simpl in Hsd.
  - rewrite Hsd. simpl. by rewrite Htr.
  - injection Hsd as ->. by rewrite Htr.
Qed.

(** C4. The weight transplant applies exactly the checkpoint entries whose
    name the model has with the same size: afterwards each name of the model
    holds the checkpoint's tensor when the sizes agree and its own former
    tensor otherwise; the model's names are unchanged, so the other
    checkpoint keys are dropped; and the load does not raise. *)
Theorem transplant_applies_matching `{Externals} opt st f pretrain_dict :
  load_weights opt ≠ "" →
  st_files st !! load_weights opt = Some f →
  file_state_dict f = Some pretrain_dict →
  NoDup (st_model st).*1 →
  ∃ m', load_pretrained opt st = (Ok tt, set_model m' st) ∧
        m'.*1 = (st_model st).*1 ∧
        ∀ k, get_state_dict m' !! k =
             match get_state_dict (st_model st) !! k with
             | Some t =>
                 match pretrain_dict !! k with
                 | Some v => if bool_decide (size t = size v) then Some v else Some t
                 | None => Some t
                 end
             | None => None
             end.
Proof.
  intros Hne Hf Hsd Hnd.
  destruct (transplant_ok (st_model st) pretrain_dict Hnd) as (m' & Htr & Hnames & Hlk).
  exists m'. split; [|split].
  - by eapply load_pretrained_run.
  - exact Hnames.
  - exact Hlk.
Qed.

Lemma transplant_applies_matching_witness :
  let W := toy accuracies_run in
  let opt := toy_options "w.pth" "" 30 10 in
  let file := @FileDict W (Checkpoint (Some toy_pretrained) None None None None) in
  let st := toy_state accuracies_run opt {[ "w.pth" := file ]} in
  ∃ m', @load_pretrained W opt st = (Ok tt, set_model m' st) ∧
        m'.*1 = (st_model st).*1 ∧
        ∀ k, get_state_dict m' !! k =
             match get_state_dict (st_model st) !! k with
             | Some t =>
                 match toy_pretrained !! k with
                 | Some v => if bool_decide (size t = size v) then Some v else Some t
                 | None => Some t
                 end
             | None => None
             end.
Proof.
  intros W opt file st.
  apply (@transplant_applies_matching W opt st file toy_pretrained).
  - discriminate.
  - reflexivity.
  - reflexivity.
  - apply (bool_decide_unpack _). vm_compute. exact I.
Defined.

(** The transplant on the toy model: the matching weight is replaced, the
    bias of another size and the untouched weight keep their values, and the
    unknown key does not enter the model. *)
Example transplant_toy :
  (λ m, (m.*1, get_state_dict m !! "conv.weight", get_state_dict m !! "conv.bias",
         get_state_dict m !! "bn.weight", get_state_dict m !! "head.weight"))
    <$> match transplant toy_model toy_pretrained with Ok m => Some m | Raise _ => None end
  = Some (["conv.weight"; "conv.bias"; "bn.weight"],
          Some (Tensor [2; 2]%nat [9; 9; 9; 9]%Q),
          Some (Tensor [2]%nat [7; 7]%Q),
          Some (Tensor [2]%nat [3; 3]%Q),
          None).
Proof. vm_compute. reflexivity. Qed.

(** ** Full resume *)

Lemma optimizer_eta `{Externals} (o : optimizer) :
  Optimizer (kind o) (state o) (n_current_steps o) = o.
Proof. by destruct o. Qed.

Lemma continue_training_run `{Externals} opt st c sd m' s :
  continue_model opt ≠ "" →
  st_files st !! continue_model opt = Some (FileDict c) →
  ck_state_dict c = Some sd →
  load_state_dict (st_model st) sd = Ok m' →
  ck_step c = Some s →
  continue_training opt st = (Ok tt, resumed st m' s c).
Proof.
  intros Hne Hf Hsd Hload Hstep. unfold continue_training, torch_load. run.
  rewrite (nonempty_path _ Hne), Hf. simpl. rewrite Hsd. simpl.
  rewrite Hload. simpl. rewrite Hstep. simpl.
  unfold resumed.
  destruct (ck_optimizer c), (ck_best_accuracy c), (ck_best_norm_ED c);
    simpl; rewrite ?optimizer_eta; reflexivity.
Qed.

Lemma continue_training_no_step `{Externals} opt st c sd m' :
  continue_model opt ≠ "" →
  st_files st !! continue_model opt = Some (FileDict c) →
  ck_state_dict c = Some sd →
  load_state_dict (st_model st) sd = Ok m' →
  ck_step c = None →
  continue_training opt st = (Raise (KeyError "step"), set_model m' st).
Proof.
  intros Hne Hf Hsd Hload Hstep. unfold continue_training, torch_load. run.
  rewrite (nonempty_path _ Hne), Hf. simpl. rewrite Hsd. simpl.
  rewrite Hload. simpl. rewrite Hstep. reflexivity.
Qed.

Lemma continue_training_bad_load `{Externals} opt st c sd e :
  continue_model opt ≠ "" →
  st_files st !! continue_model opt = Some (FileDict c) →
  ck_state_dict c = Some sd →
  load_state_dict (st_model st) sd = Raise e →
  continue_training opt st = (Raise e, st).
Proof.
  intros Hne Hf Hsd Hload. unfold continue_training, torch_load. run.
  rewrite (nonempty_path _ Hne), Hf. simpl. rewrite Hsd. simpl.
  rewrite Hload. reflexivity.
Qed.

(** ** Relations that every step of [train] respects *)

Section Preserved.
Context `{Externals}.

Context (R : relation train_state) `{!PreOrder R}.

Lemma preserves_ret {A} (a : A) : preserves R (ret a).
Proof. intros st. simpl. reflexivity. Qed.

Lemma preserves_raise {A} e : preserves R (@raise _ A e).
Proof. intros st. simpl. reflexivity. Qed.

Lemma preserves_lift {A} (r : result A) : preserves R (lift r).
Proof. intros st. simpl. reflexivity. Qed.

Lemma preserves_get : preserves R get.
Proof. intros st. simpl. reflexivity. Qed.

Lemma preserves_modify f : (∀ st, R st (f st)) → preserves R (modify f).
Proof. intros Hf st. simpl. apply Hf. Qed.

Lemma preserves_bind {A B} (c : M A) (k : A → M B) :
  preserves R c → (∀ a, preserves R (k a)) → preserves R (bind c k).
Proof.
  intros Hc Hk st. unfold bind. specialize (Hc st).
  destruct (c st) as [[a|e] st']; simpl in *; [|exact Hc].
  etrans; [exact Hc|]. apply Hk.
Qed.

Lemma preserves_torch_load path : preserves R (torch_load path).
Proof.
  unfold torch_load. apply preserves_bind; [apply preserves_get|].
  intros st. destruct (st_files st !! path); [apply preserves_ret|apply preserves_raise].
Qed.

End Preserved.

#[local] Instance trace_grows_preorder `{Externals} : PreOrder trace_grows.
Proof.
  split.
  - intros st. exists []. by rewrite app_nil_r.
  - intros st1 st2 st3 [e1 H1] [e2 H2]. exists (e1 ++ e2).
    by rewrite H2, H1, app_assoc.
Qed.

#[local] Instance bests_improve_preorder `{Externals} : PreOrder bests_improve.
Proof.
  split.
  - intros st. split; apply Qle_refl.
  - intros st1 st2 st3 [Ha1 Hd1] [Ha2 Hd2]. split.
    + eapply Qle_trans; eassumption.
    + eapply Qle_trans; eassumption.
Qed.

Lemma Qlt_bool_iff (x y : Q) : Qlt_bool x y = true ↔ (x < y)%Q.
Proof.
  unfold Qlt_bool. rewrite negb_true_iff. split.
  - intros Hb. apply Qnot_le_lt. intros Hle.
    apply Qle_bool_iff in Hle. congruence.
  - intros Hlt. destruct (Qle_bool y x) eqn:Hb; [|reflexivity].
    apply Qle_bool_iff in Hb. exfalso. by eapply Qlt_not_le.
Qed.

Lemma Qlt_bool_false (x y : Q) : Qlt_bool x y = false ↔ (y <= x)%Q.
Proof.
  unfold Qlt_bool. rewrite negb_false_iff. apply Qle_bool_iff.
Qed.

(** ** The best-metric trackers *)

Lemma keep_best_run `{Externals} opt acc ed st :
  keep_best opt acc ed st = (Ok tt, track_norm_ED opt ed (track_accuracy opt acc st)).
Proof.
  unfold keep_best, track_norm_ED, track_accuracy, save_checkpoint, written. run.
  destruct (Qlt_bool (st_best_accuracy st) acc); simpl;
    destruct (Qlt_bool ed (st_best_norm_ED st)); reflexivity.
Qed.

Lemma track_accuracy_norm_ED `{Externals} opt acc st :
  st_best_norm_ED (track_accuracy opt acc st) = st_best_norm_ED st.
Proof. unfold track_accuracy. by destruct (Qlt_bool _ _). Qed.

Lemma track_accuracy_model `{Externals} opt acc st :
  st_model (track_accuracy opt acc st) = st_model st.
Proof. unfold track_accuracy. by destruct (Qlt_bool _ _). Qed.

(** What one pass of the trackers appends to the trace: the best-accuracy
    write when the accuracy improved, then the best-edit-distance write when
    the edit distance improved, each decided by its own metric alone. *)
Lemma keep_best_trace `{Externals} opt acc ed st :
  st_trace (keep_best opt acc ed st).2 =
  st_trace st
  ++ (if Qlt_bool (st_best_accuracy st) acc
      then [SaveCheckpoint (saved_models opt "best_accuracy.pth")
              (best_accuracy_checkpoint (st_model st) acc)]
      else [])
  ++ (if Qlt_bool ed (st_best_norm_ED st)
      then [SaveCheckpoint (saved_models opt "best_norm_ED.pth")
              (best_norm_ED_checkpoint (st_model st) ed)]
      else []).
Proof.
  rewrite keep_best_run. simpl. unfold track_norm_ED.
  rewrite track_accuracy_norm_ED, track_accuracy_model.
  unfold track_accuracy.
  destruct (Qlt_bool (st_best_accuracy st) acc), (Qlt_bool ed (st_best_norm_ED st));
    simpl; rewrite ?app_nil_r, <- ?app_assoc; reflexivity.
Qed.

(** The running bests after one pass of the trackers. *)
Lemma keep_best_bests `{Externals} opt acc ed st :
  st_best_accuracy (keep_best opt acc ed st).2
    = (if Qlt_bool (st_best_accuracy st) acc then acc else st_best_accuracy st) ∧
  st_best_norm_ED (keep_best opt acc ed st).2
    = (if Qlt_bool ed (st_best_norm_ED st) then ed else st_best_norm_ED st).
Proof.
  rewrite keep_best_run. simpl. unfold track_norm_ED.
  rewrite track_accuracy_norm_ED. unfold track_accuracy.
  destruct (Qlt_bool (st_best_accuracy st) acc), (Qlt_bool ed (st_best_norm_ED st));
    simpl; split; reflexivity.
Qed.

Lemma keep_best_improves `{Externals} opt acc ed :
  preserves bests_improve (keep_best opt acc ed).
Proof.
  intros st. destruct (keep_best_bests opt acc ed st) as [Ha Hd].
  split; [rewrite Ha|rewrite Hd].
  - destruct (Qlt_bool (st_best_accuracy st) acc) eqn:Hb; [|apply Qle_refl].
    apply Qlt_le_weak. by apply Qlt_bool_iff.
  - destruct (Qlt_bool ed (st_best_norm_ED st)) eqn:Hb; [|apply Qle_refl].
    apply Qlt_le_weak. by apply Qlt_bool_iff.
Qed.

Lemma keep_best_trace_grows `{Externals} opt acc ed :
  preserves trace_grows (keep_best opt acc ed).
Proof. intros st. eexists. apply keep_best_trace. Qed.

(** ** The loop respects both relations *)

Lemma trace_grows_same `{Externals} st st' :
  st_trace st' = st_trace st → trace_grows st st'.
Proof. intros Heq. exists []. by rewrite app_nil_r. Qed.

Lemma trace_grows_log `{Externals} e st : trace_grows st (log_event e st).
Proof. by exists [e]. Qed.

Lemma bests_improve_same `{Externals} st st' :
  st_best_accuracy st' = st_best_accuracy st →
  st_best_norm_ED st' = st_best_norm_ED st →
  bests_improve st st'.
Proof. intros Ha Hd. split; [rewrite Ha|rewrite Hd]; apply Qle_refl. Qed.

(** Decompose a computation along its binds and branches; [fin] closes the
    obligation of each assignment. *)
Ltac preserved_by fin :=
  repeat match goal with
    | |- preserves _ (ret _) => apply preserves_ret; apply _
    | |- preserves _ (raise _) => apply preserves_raise; apply _
    | |- preserves _ (lift _) => apply preserves_lift; apply _
    | |- preserves _ get => apply preserves_get; apply _
    | |- preserves _ (torch_load _) => apply preserves_torch_load; apply _
    | |- preserves _ (bind _ _) => apply preserves_bind; [apply _| |intros ?]
    | |- preserves _ (modify _) => apply preserves_modify; intros ?; fin
    | |- preserves _ (if ?b then _ else _) => destruct b
    | |- preserves _ (match ?x with _ => _ end) => destruct x
    end.

Ltac same_trace :=
  first [ apply trace_grows_log
        | apply trace_grows_same;
          repeat match goal with |- context [let '(_, _) := ?p in _] => destruct p end;
          reflexivity ].

Ltac same_bests :=
  apply bests_improve_same;
  repeat match goal with |- context [let '(_, _) := ?p in _] => destruct p end;
  reflexivity.

Section LoopPreserves.
Context `{Externals}.

Lemma save_checkpoint_trace_grows c fpath : preserves trace_grows (save_checkpoint c fpath).
Proof. unfold save_checkpoint. apply preserves_modify. intros st. by exists [SaveCheckpoint fpath c]. Qed.

Lemma save_checkpoint_bests c fpath : preserves bests_improve (save_checkpoint c fpath).
Proof. unfold save_checkpoint. preserved_by same_bests. Qed.

Lemma update_parameters_trace_grows opt g : preserves trace_grows (update_parameters opt g).
Proof. unfold update_parameters, step_and_update_lr, do_optimizer_step. preserved_by same_trace. Qed.

Lemma update_parameters_bests opt g : preserves bests_improve (update_parameters opt g).
Proof. unfold update_parameters, step_and_update_lr, do_optimizer_step. preserved_by same_bests. Qed.

Lemma validation_part_trace_grows opt i : preserves trace_grows (validation_part opt i).
Proof.
  unfold validation_part. preserved_by same_trace. apply keep_best_trace_grows.
Qed.

Lemma validation_part_bests opt i : preserves bests_improve (validation_part opt i).
Proof.
  unfold validation_part. preserved_by same_bests. apply keep_best_improves.
Qed.

Lemma periodic_save_trace_grows opt i : preserves trace_grows (periodic_save opt i).
Proof. unfold periodic_save. preserved_by same_trace. apply save_checkpoint_trace_grows. Qed.

Lemma periodic_save_bests opt i : preserves bests_improve (periodic_save opt i).
Proof. unfold periodic_save. preserved_by same_bests. apply save_checkpoint_bests. Qed.

Lemma iteration_trace_grows opt i : preserves trace_grows (iteration opt i).
Proof.
  unfold iteration. preserved_by same_trace.
  - apply update_parameters_trace_grows.
  - apply validation_part_trace_grows.
  - apply periodic_save_trace_grows.
Qed.

Lemma iteration_bests opt i : preserves bests_improve (iteration opt i).
Proof.
  unfold iteration. preserved_by same_bests.
  - apply update_parameters_bests.
  - apply validation_part_bests.
  - apply periodic_save_bests.
Qed.

Lemma loop_trace_grows opt n : ∀ i, preserves trace_grows (loop opt n i).
Proof.
  induction n as [|n IH]; intros i; simpl.
  - apply preserves_ret; apply _.
  - apply preserves_bind; [apply _|apply iteration_trace_grows|intros _; apply IH].
Qed.

Lemma loop_bests opt n : ∀ i, preserves bests_improve (loop opt n i).
Proof.
  induction n as [|n IH]; intros i; simpl.
  - apply preserves_ret; apply _.
  - apply preserves_bind; [apply _|apply iteration_bests|intros _; apply IH].
Qed.

End LoopPreserves.

Lemma if_Qlt_bool {A} (x y : Q) (a b : A) :
  (if Qlt_bool x y then a else b) = (if Qlt_le_dec x y then a else b).
Proof.
  destruct (Qlt_le_dec x y) as [Hlt|Hle].
  - apply Qlt_bool_iff in Hlt. by rewrite Hlt.
  - apply Qlt_bool_false in Hle. by rewrite Hle.
Qed.

(** C5. Over any stretch of the loop, whether it ends or raises, the best
    accuracy has not decreased and the best edit distance has not increased.
    One pass of the trackers appends to the trace the best-accuracy write if
    and only if the current accuracy is strictly above the running best, and
    the best-edit-distance write if and only if the current edit distance is
    strictly below its running best; each write is decided by its own metric
    alone, and the running bests become the improved values. A run whose
    validation accuracies are 0.5, 0.6, 0.55, 0.7 writes the best-accuracy
    file exactly three times, for 0.5, 0.6 and 0.7. *)
Theorem best_trackers `{Externals} :
  (∀ opt n i st,
     (st_best_accuracy st <= st_best_accuracy (loop opt n i st).2)%Q ∧
     (st_best_norm_ED (loop opt n i st).2 <= st_best_norm_ED st)%Q) ∧
  (∀ opt acc ed st,
     st_trace (keep_best opt acc ed st).2 =
     st_trace st
     ++ (if Qlt_le_dec (st_best_accuracy st) acc
         then [SaveCheckpoint (saved_models opt "best_accuracy.pth")
                 (Checkpoint (Some (get_state_dict (st_model st))) None None
                             (Some acc) None)]
         else [])
     ++ (if Qlt_le_dec ed (st_best_norm_ED st)
         then [SaveCheckpoint (saved_models opt "best_norm_ED.pth")
                 (Checkpoint (Some (get_state_dict (st_model st))) None None
                             None (Some ed))]
         else [])) ∧
  (∀ opt acc ed st,
     st_best_accuracy (keep_best opt acc ed st).2
       = (if Qlt_le_dec (st_best_accuracy st) acc then acc else st_best_accuracy st) ∧
     st_best_norm_ED (keep_best opt acc ed st).2
       = (if Qlt_le_dec ed (st_best_norm_ED st) then ed else st_best_norm_ED st)) ∧
  (let run := @train (toy accuracies_run) (toy_options "" "" 40 10) 0%nat toy_model ∅ in
   run.1 = Ok tt ∧
   validations (st_trace run.2)
     = [(9, (5 # 10)%Q); (19, (6 # 10)%Q); (29, (55 # 100)%Q); (39, (7 # 10)%Q)] ∧
   ck_best_accuracy <$> saves_to "./saved_models/demo/best_accuracy.pth" (st_trace run.2)
     = [Some (5 # 10); Some (6 # 10); Some (7 # 10)]%Q).
Proof.
  split; [|split; [|split]].
  - intros opt n i st. apply (loop_bests opt n i st).
  - intros opt acc ed st. rewrite keep_best_trace, !if_Qlt_bool. reflexivity.
  - intros opt acc ed st. rewrite <- !if_Qlt_bool. apply keep_best_bests.
  - vm_compute. repeat split; reflexivity.
Qed.

(** ** The gradient update *)

Lemma update_parameters_run `{Externals} opt g st :
  schedule_bound opt st →
  ∃ st', update_parameters opt g st = (Ok tt, st') ∧
         schedule_bound opt st' ∧
         st_best_accuracy st' = st_best_accuracy st ∧
         st_best_norm_ED st' = st_best_norm_ED st ∧
         st_files st' = st_files st ∧
         st_trace st' = st_trace st ++ update_events opt (st_optimizer_schedule st).
Proof.
  unfold schedule_bound, warmup_path, update_parameters, update_events,
    step_and_update_lr, do_optimizer_step.
  intros Hb. run.
  destruct (str_in "Transformer" (SequenceModeling opt) && use_scheduled_optim opt).
  - destruct (Hb eq_refl) as [s Hs]. rewrite Hs. simpl.
    destruct (optimizer_step _ _ _ _) as [m os]. simpl.
    eexists. split; [reflexivity|]. simpl. repeat split; eauto.
  - destruct (str_in "Transformer" (SequenceModeling opt)); simpl;
      destruct (optimizer_step _ _ _ _) as [m os]; simpl;
      (eexists; split; [reflexivity|]; simpl; repeat split; try done);
      by rewrite <- app_assoc.
Qed.

Lemma update_parameters_unbound `{Externals} opt g st :
  warmup_path opt = true →
  st_optimizer_schedule st = None →
  update_parameters opt g st = (Raise (UnboundLocalError "optimizer_schedule"), st).
Proof.
  unfold warmup_path, update_parameters. intros Hw Hs. run. by rewrite Hw, Hs.
Qed.

(** ** Validation cadence *)

Lemma validations_app `{Externals} (tr1 tr2 : list event) :
  validations (tr1 ++ tr2) = validations tr1 ++ validations tr2.
Proof. apply omap_app. Qed.

Lemma validations_saves `{Externals} (l1 l2 : list event) :
  (∀ e, e ∈ l1 ++ l2 → ∃ p c, e = SaveCheckpoint p c) →
  validations (l1 ++ l2) = [].
Proof.
  induction (l1 ++ l2) as [|e l IH]; intros Hall; [done|].
  destruct (Hall e) as (p & c & ->); [left|].
  simpl. apply IH. intros e' He'. apply Hall. by right.
Qed.

Lemma keep_best_validations `{Externals} opt acc ed st :
  validations (st_trace (keep_best opt acc ed st).2) = validations (st_trace st).
Proof.
  rewrite keep_best_trace, validations_app, validations_saves, app_nil_r; [done|].
  intros e He. apply elem_of_app in He.
  destruct He as [He|He];
    [destruct (Qlt_bool (st_best_accuracy st) acc)
    |destruct (Qlt_bool ed (st_best_norm_ED st))];
    try (by apply elem_of_nil in He);
    apply list_elem_of_singleton in He; eauto.
Qed.

Lemma keep_best_schedule `{Externals} opt acc ed st :
  st_optimizer_schedule (keep_best opt acc ed st).2 = st_optimizer_schedule st.
Proof.
  rewrite keep_best_run. simpl. unfold track_norm_ED, track_accuracy.
  destruct (Qlt_bool (st_best_accuracy st) acc); simpl;
    destruct (Qlt_bool ed _); reflexivity.
Qed.

Lemma validation_part_run `{Externals} opt i st :
  valInterval opt ≠ 0 →
  ∃ st', validation_part opt i st = (Ok tt, st') ∧
         st_optimizer_schedule st' = st_optimizer_schedule st ∧
         validations (st_trace st') =
           validations (st_trace st)
           ++ (if validation_due opt i then [(i, (validation i (st_model st)).1)] else []).
Proof.
  intros Hv. unfold validation_part, validation_due, divides_py. run.
  apply Z.eqb_neq in Hv. rewrite Hv.
  destruct (0 <? i); simpl.
  - destruct ((i + 1) mod valInterval opt =? 0); simpl.
    + destruct (validation i (st_model st)) as [acc ed] eqn:Hval. simpl.
      pose proof (keep_best_run opt acc ed (log_event (Validation i acc ed) st)) as Hk.
      eexists. split; [exact Hk|].
      pose proof (f_equal snd Hk) as Hk2. cbn [snd] in Hk2. rewrite <- Hk2.
      rewrite keep_best_schedule, keep_best_validations. cbn [snd].
      split; [done|]. unfold log_event. cbn [st_trace]. by rewrite validations_app.
    + eexists. split; [reflexivity|]. by rewrite app_nil_r.
  - eexists. split; [reflexivity|]. by rewrite app_nil_r.
Qed.

Lemma validation_part_zero_interval `{Externals} opt i st :
  valInterval opt = 0 → 0 < i →
  validation_part opt i st = (Raise ZeroDivisionError, st).
Proof.
  intros Hv Hi. unfold validation_part, divides_py. run.
  apply Z.ltb_lt in Hi. by rewrite Hi, Hv.
Qed.

Lemma validation_due_spec opt i :
  validation_due opt i = true ↔ 0 < i ∧ (i + 1) mod valInterval opt = 0.
Proof.
  unfold validation_due. rewrite andb_true_iff, Z.ltb_lt, Z.eqb_eq. done.
Qed.

Lemma periodic_save_run `{Externals} opt i st :
  ∃ st', periodic_save opt i st = (Ok tt, st') ∧
         st_optimizer_schedule st' = st_optimizer_schedule st ∧
         validations (st_trace st') = validations (st_trace st).
Proof.
  unfold periodic_save, save_checkpoint. run.
  destruct ((i + 1) mod 1000 =? 0); simpl.
  - eexists. split; [reflexivity|]. simpl. split; [done|].
    by rewrite validations_app, app_nil_r.
  - eexists. split; [reflexivity|]. done.
Qed.

(** Every iteration, whatever its outcome, first records that it began. *)
Lemma iteration_begins `{Externals} opt i st :
  ∃ evs, st_trace (iteration opt i st).2 = st_trace st ++ Iteration i :: evs.
Proof.
  unfold iteration.
  set (rest := (let* st := get in _)).
  assert (Hrest : preserves trace_grows rest).
  { unfold rest. preserved_by same_trace.
    - apply update_parameters_trace_grows.
    - apply validation_part_trace_grows.
    - apply periodic_save_trace_grows. }
  destruct (Hrest (log_event (Iteration i) st)) as [evs Hevs].
  exists evs. unfold bind at 1. unfold modify at 1. simpl.
  rewrite Hevs. simpl. by rewrite <- app_assoc.
Qed.

Lemma iteration_run `{Externals} opt i st :
  valInterval opt ≠ 0 →
  schedule_bound opt st →
  ∃ st', iteration opt i st = (Ok tt, st') ∧
         schedule_bound opt st' ∧
         (validations (st_trace st')).*1 =
           (validations (st_trace st)).*1 ++ (if validation_due opt i then [i] else []).
Proof.
  intros Hv Hb. unfold iteration.
  assert (Hb0 : schedule_bound opt (log_event (Iteration i) st)) by exact Hb.
  destruct (update_parameters_run opt
              (backward i (st_model (log_event (Iteration i) st)))
              _ Hb0) as (st1 & Hrun1 & Hb1 & _ & _ & _ & Htr1).
  destruct (validation_part_run opt i st1 Hv) as (st2 & Hrun2 & Hs2 & Hval2).
  destruct (periodic_save_run opt i st2) as (st3 & Hrun3 & Hs3 & Hval3).
  exists st3. split; [|split].
  - unfold bind at 1. unfold modify at 1. simpl.
    unfold bind at 1. unfold get at 1. simpl.
    unfold bind at 1. simpl in Hrun1. rewrite Hrun1.
    unfold bind at 1. rewrite Hrun2. exact Hrun3.
  - unfold schedule_bound in *. rewrite Hs3, Hs2. exact Hb1.
  - rewrite Hval3, Hval2, Htr1. simpl.
    assert (validations (update_events opt (st_optimizer_schedule st)) = []) as Hup.
    { unfold update_events.
      destruct (_ && _); [destruct (st_optimizer_schedule st)|destruct (str_in _ _)];
        reflexivity. }
    rewrite !validations_app, Hup. simpl. rewrite !app_nil_r, fmap_app.
    by destruct (validation_due opt i).
Qed.

Lemma loop_run `{Externals} opt n : ∀ i st,
  valInterval opt ≠ 0 →
  schedule_bound opt st →
  ∃ st', loop opt n i st = (Ok tt, st') ∧
         schedule_bound opt st' ∧
         (validations (st_trace st')).*1 =
           (validations (st_trace st)).*1
           ++ filter (λ j, 0 < j ∧ (j + 1) mod valInterval opt = 0) (seqZ i (Z.of_nat n)).
Proof.
  induction n as [|n IH]; intros i st Hv Hb.
  - exists st. simpl. split; [reflexivity|]. split; [exact Hb|]. by rewrite app_nil_r.
  - destruct (iteration_run opt i st Hv Hb) as (st1 & Hrun1 & Hb1 & Hval1).
    destruct (IH (i + 1) st1 Hv Hb1) as (st2 & Hrun2 & Hb2 & Hval2).
    exists st2. split; [|split; [exact Hb2|]].
    + simpl. unfold bind at 1. rewrite Hrun1. exact Hrun2.
    + rewrite Hval2, Hval1, <- app_assoc. f_equal.
      rewrite (seqZ_cons i (Z.of_nat (S n))) by lia.
      replace (Z.pred (Z.of_nat (S n))) with (Z.of_nat n) by lia.
      rewrite filter_cons. replace (Z.succ i) with (i + 1) by lia.
      destruct (validation_due opt i) eqn:Hdue.
      * rewrite decide_True by by apply validation_due_spec. reflexivity.
      * rewrite decide_False; [reflexivity|].
        intros Hd. apply validation_due_spec in Hd. congruence.
Qed.

(** C6, as the specification has it, fails on the first iteration: with
    [valInterval = 1] iteration 0 satisfies [(i+1) mod valInterval = 0], and
    no validation cycle runs after it. *)
Lemma validation_cadence_counterexample :
  ¬ ((∃ acc, (0, acc) ∈ validations
                (st_trace (toy_run accuracies_run (toy_options "" "" 1 1)).2))
     ↔ (0 + 1) mod valInterval (toy_options "" "" 1 1) = 0).
Proof.
  intros [_ Hval]. destruct (Hval eq_refl) as [acc Hin].
  vm_compute in Hin. by apply elem_of_nil in Hin.
Qed.

Lemma validation_due_decide opt i :
  validation_due opt i = bool_decide (0 < i ∧ (i + 1) mod valInterval opt = 0).
Proof.
  destruct (validation_due opt i) eqn:Hdue; symmetry.
  - apply bool_decide_eq_true. by apply validation_due_spec.
  - apply bool_decide_eq_false. intros Hd. apply validation_due_spec in Hd. congruence.
Qed.

(** C6, amended. With a non-zero [valInterval], the validation part of
    iteration [i] completes and runs a validation cycle if and only if
    [0 < i] and [(i+1) mod valInterval = 0]. Over a loop whose update can
    run, the iterations [i, i+1, ..., i+n-1] all complete, and those after
    whose step a validation cycle ran are, in order, exactly the [j] of the
    range with [0 < j] and [(j+1) mod valInterval = 0]. With
    [valInterval = 10] and [num_iter = 30] from iteration 0 that makes
    exactly three cycles, after iterations 9, 19 and 29. *)
Theorem validation_cadence `{Externals} :
  (∀ opt i st,
     valInterval opt ≠ 0 →
     ∃ st', validation_part opt i st = (Ok tt, st') ∧
            (validations (st_trace st')).*1 =
              (validations (st_trace st)).*1
              ++ (if bool_decide (0 < i ∧ (i + 1) mod valInterval opt = 0)
                  then [i] else [])) ∧
  (∀ opt n i st,
     valInterval opt ≠ 0 →
     schedule_bound opt st →
     ∃ st', loop opt n i st = (Ok tt, st') ∧
            (validations (st_trace st')).*1 =
              (validations (st_trace st)).*1
              ++ filter (λ j, 0 < j ∧ (j + 1) mod valInterval opt = 0)
                        (seqZ i (Z.of_nat n))) ∧
  (toy_run accuracies_run (toy_options "" "" 30 10)).1 = Ok tt ∧
  (validations (st_trace (toy_run accuracies_run (toy_options "" "" 30 10)).2)).*1
    = [9; 19; 29].
Proof.
  split; [|split; [|split]].
  - intros opt i st Hv.
    destruct (validation_part_run opt i st Hv) as (st' & Hrun & _ & Hval).
    exists st'. split; [exact Hrun|].
    rewrite Hval, fmap_app, <- validation_due_decide.
    by destruct (validation_due opt i).
  - intros opt n i st Hv Hb.
    destruct (loop_run opt n i st Hv Hb) as (st' & Hrun & _ & Hval). eauto.
  - vm_compute. reflexivity.
  - vm_compute. reflexivity.
Qed.

Lemma validation_cadence_witness :
  let W := toy accuracies_run in
  let opt := toy_options "" "" 30 10 in
  ∃ st', @loop W opt 30 0 (toy_state accuracies_run opt ∅) = (Ok tt, st') ∧
         (validations (st_trace st')).*1 = [9; 19; 29].
Proof.
  intros W opt.
  destruct (proj1 (proj2 (@validation_cadence W)) opt 30%nat 0
              (toy_state accuracies_run opt ∅))
    as (st' & Hrun & Hval).
  - discriminate.
  - intros Hw. vm_compute in Hw. discriminate.
  - exists st'. split; [exact Hrun|]. rewrite Hval. vm_compute. reflexivity.
Defined.

(** ** Resume: where the loop starts *)

Lemma set_current_steps_run `{Externals} opt st :
  ∃ st', set_current_steps opt st = (Ok tt, st') ∧
         st_model st' = st_model st ∧
         st_start_iter st' = st_start_iter st ∧
         st_optimizer_schedule st' = st_optimizer_schedule st ∧
         state (st_optimizer st') = state (st_optimizer st) ∧
         st_best_accuracy st' = st_best_accuracy st ∧
         st_best_norm_ED st' = st_best_norm_ED st ∧
         st_trace st' = st_trace st.
Proof.
  unfold set_current_steps. run.
  destruct (warmup_path opt); eexists; (split; [reflexivity|]); simpl; done.
Qed.

Lemma training_loop_begins `{Externals} opt st :
  st_start_iter st < num_iter opt →
  ∃ evs, st_trace (training_loop opt st).2
         = st_trace st ++ Iteration (st_start_iter st) :: evs.
Proof.
  intros Hlt. unfold training_loop. unfold bind at 1. unfold get at 1. simpl.
  destruct (Z.to_nat (num_iter opt - st_start_iter st)) as [|n] eqn:Hn; [lia|].
  simpl. unfold bind at 1.
  destruct (iteration_begins opt (st_start_iter st) st) as [evs1 Hevs1].
  destruct (iteration opt (st_start_iter st) st) as [[[]|e] st1]; simpl in *.
  - destruct (loop_trace_grows opt n (st_start_iter st + 1) st1) as [evs2 Hevs2].
    exists (evs1 ++ evs2). rewrite Hevs2, Hevs1, <- app_assoc. reflexivity.
  - exists evs1. exact Hevs1.
Qed.

(** C1. A resume from a checkpoint file whose dict holds a parameter map that
    the model accepts and a step [s] completes, sets [start_iter] to [s+1]
    without running anything, and the first iteration that the loop then
    executes is [s+1] (there is one when [s+1 < num_iter]). *)
Theorem resume_starts_after_step `{Externals} opt st c sd m' s :
  continue_model opt ≠ "" →
  st_files st !! continue_model opt = Some (FileDict c) →
  ck_state_dict c = Some sd →
  load_state_dict (st_model st) sd = Ok m' →
  ck_step c = Some s →
  s + 1 < num_iter opt →
  ∃ st', (continue_training opt ;; set_current_steps opt) st = (Ok tt, st') ∧
         st_start_iter st' = s + 1 ∧
         st_trace st' = st_trace st ∧
         ∃ evs, st_trace (training_loop opt st').2
                = st_trace st ++ Iteration (s + 1) :: evs.
Proof.
  intros Hne Hf Hsd Hload Hstep Hlt.
  pose proof (continue_training_run opt st c sd m' s Hne Hf Hsd Hload Hstep) as Hrun.
  destruct (set_current_steps_run opt (resumed st m' s c))
    as (st' & Hset & _ & Hstart & _ & _ & _ & _ & Htr).
  exists st'. split; [|split; [|split]].
  - unfold bind at 1. rewrite Hrun. exact Hset.
  - rewrite Hstart. reflexivity.
  - rewrite Htr. reflexivity.
  - destruct (training_loop_begins opt st') as [evs Hevs].
    + rewrite Hstart. simpl. exact Hlt.
    + exists evs. rewrite Hevs, Hstart, Htr. reflexivity.
Qed.

Example toy_files_1000_periodic :
  toy_files_1000 !! "./saved_models/demo/iter_1000.pth" = Some (FileDict toy_iter_1000).
Proof. vm_compute. reflexivity. Qed.

Lemma resume_starts_after_step_witness :
  let W := toy accuracies_run in
  let opt := toy_options "" "./saved_models/demo/iter_1000.pth" 1010 10 in
  let st := toy_state accuracies_run opt toy_files_1000 in
  ∃ st', (@continue_training W opt ;; @set_current_steps W opt) st = (Ok tt, st') ∧
         st_start_iter st' = 999 + 1 ∧
         st_trace st' = st_trace st ∧
         ∃ evs, st_trace (@training_loop W opt st').2
                = st_trace st ++ Iteration (999 + 1) :: evs.
Proof.
  intros W opt st.
  eapply (@resume_starts_after_step W opt st toy_iter_1000 _ _ 999).
  - discriminate.
  - vm_compute. reflexivity.
  - reflexivity.
  - vm_compute. reflexivity.
  - reflexivity.
  - reflexivity.
Defined.

(** ** Resume: the optional fields *)

(** C2, as the specification has it, fails: a checkpoint that holds the
    parameter map and nothing else makes the resume raise [KeyError] on
    [step], after the parameters were loaded; and the initial best edit
    distance is the finite 1000000. *)
Lemma resume_without_step_counterexample :
  (@continue_training (toy accuracies_run) (toy_options "" "ckpt.pth" 30 10)
     (toy_state accuracies_run (toy_options "" "ckpt.pth" 30 10)
        (toy_one_file accuracies_run
           (Checkpoint (Some (get_state_dict toy_model)) None None None None)))).1
  = Raise (KeyError "step") ∧
  st_best_norm_ED
    (toy_state accuracies_run (toy_options "" "ckpt.pth" 30 10) ∅) = 1000000%Q.
Proof. split; vm_compute; reflexivity. Qed.

(** C2, amended. In a full-resume checkpoint the parameter map and the step
    are required; the optimizer state and the two best metrics are optional.
    When the checkpoint holds a parameter map that the model accepts and a
    step [s], the resume completes: the parameters are the loaded ones, the
    start iteration is [s+1], and the optimizer state, the best accuracy
    and the best edit distance are the checkpoint's where it has them and
    keep their former values where it does not. Before any resume those
    values are the initial ones: best accuracy -1, best edit distance 1000000. *)
Theorem resume_optional_fields `{Externals} opt st c sd m' s :
  continue_model opt ≠ "" →
  st_files st !! continue_model opt = Some (FileDict c) →
  ck_state_dict c = Some sd →
  load_state_dict (st_model st) sd = Ok m' →
  ck_step c = Some s →
  (∃ st', continue_training opt st = (Ok tt, st') ∧
          st_model st' = m' ∧
          st_start_iter st' = s + 1 ∧
          state (st_optimizer st') = default (state (st_optimizer st)) (ck_optimizer c) ∧
          st_best_accuracy st' = default (st_best_accuracy st) (ck_best_accuracy c) ∧
          st_best_norm_ED st' = default (st_best_norm_ED st) (ck_best_norm_ED c)) ∧
  (∀ opt0 m fs, st_best_accuracy (initial_state opt0 m fs) = (-1)%Q ∧
                st_best_norm_ED (initial_state opt0 m fs) = 1000000%Q).
Proof.
  intros Hne Hf Hsd Hload Hstep. split.
  - exists (resumed st m' s c). split.
    + by eapply continue_training_run.
    + simpl. done.
  - intros opt0 m fs. unfold initial_state.
    destruct (setup_optimizer opt0). simpl. done.
Qed.

(** The example of the specification: best accuracy 0.87 and no
    [best_norm_ED] key. *)
Lemma resume_optional_fields_witness :
  let W := toy accuracies_run in
  let opt := toy_options "" "ckpt.pth" 2000 10 in
  let c := @Checkpoint W (Some (get_state_dict toy_model)) None (Some 999)
                       (Some (87 # 100)%Q) None in
  let st := toy_state accuracies_run opt (toy_one_file accuracies_run c) in
  ∃ st', @continue_training W opt st = (Ok tt, st') ∧
         st_start_iter st' = 1000 ∧
         st_best_accuracy st' = (87 # 100)%Q ∧
         st_best_norm_ED st' = 1000000%Q.
Proof.
  intros W opt c st.
  destruct (@resume_optional_fields W opt st c (get_state_dict toy_model) toy_model 999)
    as [(st' & Hrun & _ & Hstart & _ & Hacc & Hed) _].
  - discriminate.
  - reflexivity.
  - reflexivity.
  - vm_compute. reflexivity.
  - reflexivity.
  - exists st'. split; [exact Hrun|]. split; [exact Hstart|]. split; assumption.
Defined.

(** ** Resume and the warmup scheduler *)

#[local] Instance same_schedule_preorder `{Externals} : PreOrder same_schedule.
Proof.
  split.
  - intros st. reflexivity.
  - intros st1 st2 st3 H12 H23. unfold same_schedule in *. congruence.
Qed.

(** Nothing between the optimizer setup and the loop touches the scheduler:
    line 205 assigns [n_current_steps] on [optimizer], and the scheduler's
    own counter stays where its constructor put it. *)
Lemma prepare_same_schedule `{Externals} opt : preserves same_schedule (prepare opt).
Proof.
  unfold prepare, load_pretrained, continue_training, set_current_steps.
  preserved_by ltac:(reflexivity).
Qed.

Lemma prepare_scheduler_counter `{Externals} opt m fs :
  adam opt = false →
  warmup_path opt = true →
  sched_n_current_steps <$> st_optimizer_schedule (prepare opt (initial_state opt m fs)).2
  = Some 0.
Proof.
  intros Ha Hw. rewrite (prepare_same_schedule opt (initial_state opt m fs)).
  unfold initial_state, setup_optimizer. by rewrite Ha, Hw.
Qed.

(** C3 fails on the code. Resuming the warmup-scheduled Transformer run from
    a checkpoint of step 999 completes and sets the start iteration to 1000;
    the attribute [n_current_steps] of the optimizer holds 1000, the step
    counter of the scheduler holds 0, and the first step after the resume is
    the scheduler's step 1. *)
Theorem scheduler_counter_not_resumed :
  let W := toy accuracies_run in
  let opt := toy_warmup_options false "ckpt.pth" 1001 in
  let c := @Checkpoint W (Some (get_state_dict toy_model)) (Some (1000 : @optim_state W))
                       (Some 999) (Some (7 # 10)%Q) (Some (3 # 10)%Q) in
  let st := @prepare W opt (toy_state accuracies_run opt (toy_one_file accuracies_run c)) in
  st.1 = Ok tt ∧
  st_start_iter st.2 = 1000 ∧
  n_current_steps (st_optimizer st.2) = Some 1000 ∧
  sched_n_current_steps <$> st_optimizer_schedule st.2 = Some 0 ∧
  st_trace (@training_loop W opt st.2).2 = [Iteration 1000; StepAndUpdateLr 1].
Proof. vm_compute. repeat split; reflexivity. Qed.

(** ** The gradient update when [--adam] meets the warmup flag *)

(** C8 fails on the code. With [--adam] and [-use_scheduled_optim] on the
    Transformer variant, the optimizer setup takes its first branch and never
    binds [optimizer_schedule]; the first iteration takes the warmup branch
    of the update and raises [UnboundLocalError] before any step. *)
Theorem warmup_update_unbound_with_adam :
  let run := toy_run accuracies_run (toy_warmup_options true "" 30) in
  run.1 = Raise (UnboundLocalError "optimizer_schedule") ∧
  st_trace run.2 = [Iteration 0].
Proof. vm_compute. split; reflexivity. Qed.

(** On every other path the update is the one of its branch: the scheduler's
    scale-then-step alone on the warmup path, the optimizer step alone on
    the plain Transformer path, and the clipping to [grad_clip] immediately
    before the optimizer step on the other variants. *)
Lemma gradient_update_policy `{Externals} opt g st :
  schedule_bound opt st →
  ∃ st', update_parameters opt g st = (Ok tt, st') ∧
         st_trace st' = st_trace st ++
           if str_in "Transformer" (SequenceModeling opt) then
             if use_scheduled_optim opt then
               match st_optimizer_schedule st with
               | Some s => [StepAndUpdateLr (sched_n_current_steps s + 1)]
               | None => []
               end
             else [OptimizerStep]
           else [ClipGradNorm (grad_clip opt); OptimizerStep].
Proof.
  intros Hb.
  destruct (update_parameters_run opt g st Hb) as (st' & Hrun & _ & _ & _ & _ & Htr).
  exists st'. split; [exact Hrun|]. rewrite Htr. unfold update_events.
  destruct (str_in "Transformer" (SequenceModeling opt)), (use_scheduled_optim opt);
    reflexivity.
Qed.

Example default_grad_clip : grad_clip default_options = 5%Q.
Proof. reflexivity. Qed.

(** The failure is not one of the toy world: whenever the loop takes the
    warmup branch with the name unbound, the iteration raises right after it
    began, and the setup leaves the name unbound under [--adam]. *)
Lemma iteration_unbound `{Externals} opt i st :
  warmup_path opt = true →
  st_optimizer_schedule st = None →
  iteration opt i st
  = (Raise (UnboundLocalError "optimizer_schedule"), log_event (Iteration i) st).
Proof.
  intros Hw Hs. unfold iteration.
  unfold bind at 1. unfold modify at 1. simpl.
  unfold bind at 1. unfold get at 1. simpl.
  unfold bind at 1. by rewrite update_parameters_unbound.
Qed.

Lemma training_loop_unbound `{Externals} opt st :
  warmup_path opt = true →
  st_optimizer_schedule st = None →
  st_start_iter st < num_iter opt →
  training_loop opt st
  = (Raise (UnboundLocalError "optimizer_schedule"),
     log_event (Iteration (st_start_iter st)) st).
Proof.
  intros Hw Hs Hlt. unfold training_loop. unfold bind at 1. unfold get at 1. simpl.
  destruct (Z.to_nat (num_iter opt - st_start_iter st)) as [|n] eqn:Hn; [lia|].
  simpl. unfold bind at 1. by rewrite iteration_unbound.
Qed.

Lemma prepare_unbound_with_adam `{Externals} opt m fs :
  adam opt = true →
  st_optimizer_schedule (prepare opt (initial_state opt m fs)).2 = None.
Proof.
  intros Ha. rewrite (prepare_same_schedule opt (initial_state opt m fs)).
  unfold initial_state, setup_optimizer. by rewrite Ha.
Qed.

(** ** The best-metric checkpoints are weights-only *)

Lemma continue_training_needs_step `{Externals} opt st c :
  continue_model opt ≠ "" →
  st_files st !! continue_model opt = Some (FileDict c) →
  ck_step c = None →
  ∃ e, (continue_training opt st).1 = Raise e ∧
       ∀ sd m', ck_state_dict c = Some sd →
                load_state_dict (st_model st) sd = Ok m' →
                e = KeyError "step".
Proof.
  intros Hne Hf Hstep.
  destruct (ck_state_dict c) as [sd|] eqn:Hsd.
  - destruct (load_state_dict (st_model st) sd) as [m'|e] eqn:Hload.
    + exists (KeyError "step"). split; [|done].
      by rewrite (continue_training_no_step opt st c sd m').
    + exists e. split; [|intros sd0 m0 [= <-] Hok; congruence].
      by rewrite (continue_training_bad_load opt st c sd e).
  - exists (KeyError "state_dict"). split; [|done].
    unfold continue_training, torch_load. run.
    rewrite (nonempty_path _ Hne), Hf. simpl. by rewrite Hsd.
Qed.

(** C10. The checkpoints that the trackers write hold the parameter map and
    the improved metric only: no step, no optimizer state, not the other
    metric. A resume from a checkpoint without a step raises ([KeyError] on
    [step] once the parameters were loaded), so such a file is no resume
    source; the transplant reads only the parameter map and completes on
    it. *)
Theorem best_checkpoints_weights_only `{Externals} :
  (∀ opt acc ed st,
     ∃ evs, st_trace (keep_best opt acc ed st).2 = st_trace st ++ evs ∧
            Forall (λ e,
              e = SaveCheckpoint (saved_models opt "best_accuracy.pth")
                    (Checkpoint (Some (get_state_dict (st_model st))) None None
                                (Some acc) None) ∨
              e = SaveCheckpoint (saved_models opt "best_norm_ED.pth")
                    (Checkpoint (Some (get_state_dict (st_model st))) None None
                                None (Some ed))) evs) ∧
  (∀ opt st c,
     continue_model opt ≠ "" →
     st_files st !! continue_model opt = Some (FileDict c) →
     ck_step c = None →
     ∃ e, (continue_training opt st).1 = Raise e ∧
          ∀ sd m', ck_state_dict c = Some sd →
                   load_state_dict (st_model st) sd = Ok m' →
                   e = KeyError "step") ∧
  (∀ opt st c sd,
     load_weights opt ≠ "" →
     st_files st !! load_weights opt = Some (FileDict c) →
     ck_state_dict c = Some sd →
     NoDup (st_model st).*1 →
     ∃ m', load_pretrained opt st = (Ok tt, set_model m' st)).
Proof.
  split; [|split].
  - intros opt acc ed st. eexists. split; [apply keep_best_trace|].
    apply Forall_app. split.
    + destruct (Qlt_bool _ _); repeat constructor.
    + destruct (Qlt_bool _ _); [|constructor].
      constructor; [by right|constructor].
  - apply @continue_training_needs_step.
  - intros opt st c sd Hne Hf Hsd Hnd.
    destruct (transplant_ok (st_model st) sd Hnd) as (m' & Htr & _).
    exists m'. by eapply (load_pretrained_run opt st (FileDict c)).
Qed.

Lemma best_checkpoints_weights_only_witness :
  let W := toy accuracies_run in
  let best := "./saved_models/demo/best_accuracy.pth" in
  toy_files_30 !! best = Some (FileDict toy_best_accuracy) ∧
  (@continue_training W (toy_options "" best 60 10)
     (toy_state accuracies_run (toy_options "" best 60 10) toy_files_30)).1
  = Raise (KeyError "step") ∧
  ∃ m', @load_pretrained W (toy_options best "" 60 10)
          (toy_state accuracies_run (toy_options best "" 60 10) toy_files_30)
        = (Ok tt, set_model m' (toy_state accuracies_run (toy_options best "" 60 10)
                                  toy_files_30)).
Proof.
  intros W best.
  pose proof (@best_checkpoints_weights_only W) as (_ & Hresume & Htransplant).
  split; [vm_compute; reflexivity|]. split.
  - destruct (Hresume (toy_options "" best 60 10)
                (toy_state accuracies_run (toy_options "" best 60 10) toy_files_30)
                toy_best_accuracy) as (e & Hraise & Hstep).
    + discriminate.
    + vm_compute. reflexivity.
    + reflexivity.
    + rewrite Hraise. f_equal. eapply Hstep.
      * reflexivity.
      * vm_compute. reflexivity.
  - apply (Htransplant (toy_options best "" 60 10)
             (toy_state accuracies_run (toy_options best "" 60 10) toy_files_30)
             toy_best_accuracy
             (get_state_dict (@init_weights W 0%nat toy_model).1)).
    + discriminate.
    + vm_compute. reflexivity.
    + reflexivity.
    + apply (bool_decide_unpack _). vm_compute. exact I.
Defined.

(** ** The transformer loss *)

Section LossProperties.
Local Open Scope R_scope.

Lemma Rsum_cons (x : R) (l : list R) : Rsum (x :: l) = x + Rsum l.
Proof. reflexivity. Qed.

(** A dot product against a list given by its indices is a sum over the
    indices. *)
Lemma dot_indexed (w : nat → R) (lp : list R) : ∀ a,
  dot (map w (seq a (length lp))) lp
  = Rsum (map (λ j, w j * nth (j - a) lp 0) (seq a (length lp))).
Proof.
  unfold dot. induction lp as [|x lp IH]; intros a; [reflexivity|].
  simpl. rewrite Nat.sub_diag. f_equal. rewrite IH. f_equal.
  apply map_ext_in. intros j Hj. apply in_seq in Hj.
  replace (j - a)%nat with (S (j - S a)) by lia. reflexivity.
Qed.

(** Splitting a weighted sum over distinct indices at the index [t]. *)
Lemma Rsum_split_at (t : nat) (hit other : R) (x : nat → R) (l : list nat) :
  NoDup l →
  Rsum (map (λ j, (if Nat.eqb j t then hit else other) * x j) l)
  = hit * (if bool_decide (t ∈ l) then x t else 0)
    + other * Rsum (map x (filter (λ j, j ≠ t) l)).
Proof.
  induction 1 as [|j l Hj Hnd IH].
  - simpl. lra.
  - rewrite map_cons, Rsum_cons, IH, filter_cons.
    destruct (Nat.eqb_spec j t) as [->|Hne].
    + rewrite decide_False by (intros Hc; by apply Hc).
      rewrite (bool_decide_eq_true_2 (t ∈ t :: l)) by left.
      rewrite (bool_decide_eq_false_2 (t ∈ l)) by done. lra.
    + rewrite decide_True by done. rewrite map_cons, Rsum_cons.
      destruct (bool_decide (t ∈ l)) eqn:Hin.
      * apply bool_decide_eq_true in Hin.
        rewrite (bool_decide_eq_true_2 (t ∈ j :: l)) by by right. lra.
      * apply bool_decide_eq_false in Hin.
        rewrite (bool_decide_eq_false_2 (t ∈ j :: l)); [lra|].
        intros Hc. apply elem_of_cons in Hc. destruct Hc; [congruence|done].
Qed.

(** Without smoothing the closed form is minus the log-probability of the
    target. *)
Lemma smoothed_term_no_smoothing (K t : nat) (logp : list R) :
  smoothed_term 0 K logp t = - nth t logp 0.
Proof. unfold smoothed_term, Rdiv. ring. Qed.

(** One position of the smoothed loss is the closed form of the
    specification. *)
Lemma smoothed_row (K t : nat) (logp : list R) :
  length logp = K → (t < K)%nat →
  - dot (map (λ o, o * (1 - 1 / 10) + (1 - o) * (1 / 10) / (INR K - 1))
             (one_hot_row K t)) logp
  = smoothed_term (1 / 10) K logp t.
Proof.
  intros Hlen Ht. subst K. unfold one_hot_row, smoothed_term. rewrite map_map.
  rewrite dot_indexed.
  rewrite (map_ext _ (λ j, (if Nat.eqb j t
                            then 1 - 1 / 10 else 1 / 10 / (INR (length logp) - 1))
                           * nth j logp 0)).
  2:{ intros j. rewrite Nat.sub_0_r. destruct (Nat.eqb j t); unfold Rdiv; ring. }
  rewrite (Rsum_split_at t _ _ (λ j, nth j logp 0)) by apply NoDup_seq.
  rewrite bool_decide_eq_true_2.
  2:{ apply elem_of_seq. lia. }
  lra.
Qed.

Lemma masked_select_all (l : list R) (gold : list nat) (PAD : nat) :
  length l = length gold →
  Forall (λ t, t ≠ PAD) gold →
  masked_select l (map (λ t, negb (Nat.eqb t PAD)) gold) = l.
Proof.
  revert gold. induction l as [|x l IH]; intros [|t gold] Hlen Hall; try done.
  inversion Hall as [|? ? Ht Hrest]; subst. simpl.
  destruct (Nat.eqb_spec t PAD) as [->|_]; [done|]. simpl.
  f_equal. apply IH; [by injection Hlen|done].
Qed.

Lemma targets_in_range (K N : nat) (gold : list nat) :
  length gold = N → Forall (λ t, (t < K)%nat) gold →
  bad_targets K N None gold = false.
Proof.
  intros Hlen Hall. unfold bad_targets. rewrite Hlen, Nat.eqb_refl. simpl.
  clear Hlen. induction Hall as [|t gold Ht _ IH]; [done|]. simpl.
  destruct (Nat.leb_spec K t); [lia|]. exact IH.
Qed.

Lemma smoothed_positions (K : nat) (rows : list (list R)) (gold : list nat) :
  Forall (λ row, length row = K) rows →
  length gold = length rows →
  Forall (λ t, (t < K)%nat) gold →
  zip_with (λ oh lp, - dot oh lp)
    (map (map (λ o, o * (1 - 1 / 10) + (1 - o) * (1 / 10) / (INR K - 1)))
         (map (one_hot_row K) gold))
    (map log_softmax rows)
  = zip_with (λ row t, smoothed_term (1 / 10) K (log_softmax row) t) rows gold.
Proof.
  intros Hrows. revert gold.
  induction Hrows as [|row rows Hrow _ IH]; intros [|t gold] Hlen Hall; try done.
  inversion Hall as [|? ? Ht Hrest]; subst. simpl. f_equal.
  - apply smoothed_row; [|done]. unfold log_softmax. by rewrite length_map.
  - apply IH; [by injection Hlen|done].
Qed.

Lemma targets_in_range_but_padding (K N PAD : nat) (gold : list nat) :
  length gold = N → Forall (λ t, t ≠ PAD → (t < K)%nat) gold →
  bad_targets K N (Some PAD) gold = false.
Proof.
  intros Hlen Hall. unfold bad_targets. rewrite Hlen, Nat.eqb_refl. simpl.
  clear Hlen. induction Hall as [|t gold Ht _ IH]; [done|]. simpl.
  rewrite IH, orb_false_r.
  destruct (decide (t = PAD)) as [->|Hne].
  - by rewrite bool_decide_eq_true_2.
  - destruct (Nat.leb_spec K t); [specialize (Ht Hne); lia|]. by rewrite andb_false_r.
Qed.

(** Minus the log-softmax at an index of the row. *)
Lemma log_softmax_at (row : list R) (t : nat) :
  (t < length row)%nat →
  - nth t (log_softmax row) 0 = ln (Rsum (map exp row)) - nth t row 0.
Proof.
  intros Ht. unfold log_softmax.
  rewrite (nth_indep _ 0 (0 - ln (Rsum (map exp row)))) by by rewrite length_map.
  rewrite (map_nth (λ x, x - ln (Rsum (map exp row)))). lra.
Qed.

(** The terms that the cross-entropy keeps are those of the positions whose
    target is not the ignored index. *)
Lemma unsmoothed_positions (K PAD : nat) (rows : list (list R)) : ∀ gold : list nat,
  Forall (λ row, length row = K) rows →
  length gold = length rows →
  Forall (λ t, t ≠ PAD → (t < K)%nat) gold →
  masked_select (zip_with (λ row t, - nth t (log_softmax row) 0) rows gold)
                (map (λ t, negb (Nat.eqb t PAD)) gold)
  = map (λ rt : list R * nat, ln (Rsum (map exp rt.1)) - nth rt.2 rt.1 0)
        (filter (λ rt : list R * nat, rt.2 ≠ PAD) (zip rows gold)).
Proof.
  induction rows as [|row rows IH]; intros [|t gold] Hrows Hlen Hall; try done.
  inversion Hrows as [|? ? Hrow Hrows']; inversion Hall as [|? ? Ht Hall']; subst.
  cbn [zip_with map masked_select]. change (zip (row :: rows) (t :: gold))
    with ((row, t) :: zip rows gold).
  rewrite filter_cons. simpl.
  destruct (Nat.eqb_spec t PAD) as [->|Hne]; simpl.
  - rewrite decide_False by (intros Hc; by apply Hc).
    apply IH; [done|by injection Hlen|done].
  - rewrite decide_True by done. rewrite map_cons. f_equal.
    + apply log_softmax_at. simpl. exact (Ht Hne).
    + apply IH; [done|by injection Hlen|done].
Qed.

(** C7. Arithmetic over the reals. For a prediction matrix of [K >= 2]
    classes and at least one row, and targets that are classes and never the
    padding index, the label-smoothed loss is the mean over the positions of
    [-(1-eps)*logp[t] - (eps/(K-1)) * sum_{j<>t} logp[j]] with [eps = 0.1]
    and [logp] the log-softmax of the row. With smoothing disabled, for one
    target per row, every target other than the padding index a class and
    at least one such target, the loss is the plain cross-entropy that
    ignores the padding index: the mean, over the positions whose target
    [t] is not the padding index, of [-logp[t] = ln (sum_j exp x[j]) - x[t]]
    with [x] the row of the position. *)
Theorem transformer_loss_formula (PAD : nat) :
  (∀ pred gold,
     (2 <= size1 pred)%nat →
     rows pred ≠ [] →
     Forall (λ row, length row = size1 pred) (rows pred) →
     length gold = length (rows pred) →
     Forall (λ t, (t < size1 pred)%nat ∧ t ≠ PAD) gold →
     transformer_loss PAD pred gold true
     = Ok (mean (zip_with
                   (λ row t,
                      - (1 - 1 / 10) * nth t (log_softmax row) 0
                      - (1 / 10 / (INR (size1 pred) - 1))
                        * Rsum (map (λ j, nth j (log_softmax row) 0)
                                    (filter (λ j, j ≠ t) (seq 0 (size1 pred)))))
                   (rows pred) gold))) ∧
  (∀ pred gold,
     Forall (λ row, length row = size1 pred) (rows pred) →
     length gold = length (rows pred) →
     Forall (λ t, t ≠ PAD → (t < size1 pred)%nat) gold →
     Exists (λ t, t ≠ PAD) gold →
     transformer_loss PAD pred gold false
     = Ok (mean (map (λ rt : list R * nat, ln (Rsum (map exp rt.1)) - nth rt.2 rt.1 0)
                     (filter (λ rt : list R * nat, rt.2 ≠ PAD)
                             (zip (rows pred) gold))))).
Proof.
  split.
  - intros pred gold HK Hne Hrows Hlen Hgold.
    assert (Hrange : Forall (λ t, (t < size1 pred)%nat) gold)
      by (eapply Forall_impl; [exact Hgold|]; simpl; tauto).
    assert (Hpad : Forall (λ t, t ≠ PAD) gold)
      by (eapply Forall_impl; [exact Hgold|]; simpl; tauto).
    unfold transformer_loss.
    rewrite (targets_in_range _ _ _ Hlen Hrange).
    rewrite (smoothed_positions _ _ _ Hrows Hlen Hrange).
    rewrite masked_select_all; [reflexivity| |exact Hpad].
    rewrite length_zip_with. lia.
  - intros pred gold Hrows Hlen Hgold _.
    unfold transformer_loss, cross_entropy.
    rewrite (targets_in_range_but_padding _ _ _ _ Hlen Hgold).
    by rewrite (unsmoothed_positions _ _ _ _ Hrows Hlen Hgold).
Qed.

End LossProperties.

Lemma transformer_loss_formula_witness :
  (transformer_loss 0 toy_pred [1; 2]%nat true
   = Ok (mean (zip_with
                 (λ row t,
                    - (1 - 1 / 10) * nth t (log_softmax row) 0
                    - (1 / 10 / (INR (size1 toy_pred) - 1))
                      * Rsum (map (λ j, nth j (log_softmax row) 0)
                                  (filter (λ j, j ≠ t) (seq 0 (size1 toy_pred)))))
                 (rows toy_pred) [1; 2]%nat)))%R ∧
  (transformer_loss 0 toy_pred [0; 2]%nat false
   = Ok (mean (map (λ rt : list R * nat, ln (Rsum (map exp rt.1)) - nth rt.2 rt.1 0)
                   (filter (λ rt : list R * nat, rt.2 ≠ 0%nat)
                           (zip (rows toy_pred) [0; 2]%nat)))))%R.
Proof.
  split.
  - apply (proj1 (transformer_loss_formula 0%nat) toy_pred [1; 2]%nat).
    + simpl. lia.
    + discriminate.
    + repeat constructor.
    + reflexivity.
    + repeat constructor; simpl; lia.
  - apply (proj2 (transformer_loss_formula 0%nat) toy_pred [0; 2]%nat).
    + repeat constructor.
    + reflexivity.
    + repeat constructor; simpl; lia.
    + apply Exists_cons_tl, Exists_cons_hd. discriminate.
Defined.

(** * Further properties of the code *)

(** ** The events of one iteration *)

Lemma validation_part_trace `{Externals} opt i st :
  valInterval opt ≠ 0 →
  ∃ st', validation_part opt i st = (Ok tt, st') ∧
         st_model st' = st_model st ∧
         st_optimizer st' = st_optimizer st ∧
         st_optimizer_schedule st' = st_optimizer_schedule st ∧
         st_trace st' =
           st_trace st ++ (if validation_due opt i then validation_events opt i st else []).
Proof.
  intros Hv. unfold validation_part, validation_due, validation_events, divides_py. run.
  apply Z.eqb_neq in Hv. rewrite Hv.
  destruct (0 <? i); simpl.
  2:{ exists st. by rewrite app_nil_r. }
  destruct ((i + 1) mod valInterval opt =? 0); simpl.
  2:{ exists st. by rewrite app_nil_r. }
  destruct (validation i (st_model st)) as [acc ed] eqn:Hval. simpl.
  pose proof (keep_best_run opt acc ed (log_event (Validation i acc ed) st)) as Hk.
  pose proof (keep_best_trace opt acc ed (log_event (Validation i acc ed) st)) as Htr.
  eexists. split; [exact Hk|].
  rewrite Hk in Htr. cbn [snd] in Htr. rewrite Htr. clear Hk Htr.
  unfold track_norm_ED, track_accuracy. simpl.
  destruct (Qlt_bool (st_best_accuracy st) acc); simpl;
    destruct (Qlt_bool ed (st_best_norm_ED st)); simpl;
    rewrite <- ?app_assoc; done.
Qed.

Lemma periodic_save_explicit `{Externals} opt i st :
  periodic_save opt i st
  = (Ok tt, if (i + 1) mod 1000 =? 0
            then written (periodic_path opt i) (periodic_checkpoint i st) st
            else st).
Proof.
  unfold periodic_save, save_checkpoint, written. run.
  by destruct ((i + 1) mod 1000 =? 0).
Qed.

(** A completed iteration, event by event. *)
Lemma iteration_trace `{Externals} opt i st :
  valInterval opt ≠ 0 →
  schedule_bound opt st →
  ∃ st1 st', update_parameters opt (backward i (st_model st)) (log_event (Iteration i) st)
               = (Ok tt, st1) ∧
             iteration opt i st = (Ok tt, st') ∧
             schedule_bound opt st' ∧
             st_trace st' =
               st_trace st
               ++ Iteration i :: update_events opt (st_optimizer_schedule st)
               ++ (if validation_due opt i then validation_events opt i st1 else [])
               ++ (if (i + 1) mod 1000 =? 0
                   then [SaveCheckpoint (periodic_path opt i) (periodic_checkpoint i st')]
                   else []).
Proof.
  intros Hv Hb.
  assert (Hb0 : schedule_bound opt (log_event (Iteration i) st)) by exact Hb.
  destruct (update_parameters_run opt
              (backward i (st_model (log_event (Iteration i) st)))
              _ Hb0) as (st1 & Hrun1 & Hb1 & _ & _ & _ & Htr1).
  destruct (validation_part_trace opt i st1 Hv) as (st2 & Hrun2 & Hm2 & Ho2 & Hs2 & Htr2).
  pose proof (periodic_save_explicit opt i st2) as Hrun3.
  exists st1. eexists. split; [exact Hrun1|]. split; [|split].
  - unfold iteration.
    unfold bind at 1. unfold modify at 1. simpl.
    unfold bind at 1. unfold get at 1. simpl.
    unfold bind at 1. simpl in Hrun1. rewrite Hrun1.
    unfold bind at 1. rewrite Hrun2. exact Hrun3.
  - unfold schedule_bound in *.
    destruct ((i + 1) mod 1000 =? 0); simpl; rewrite Hs2; exact Hb1.
  - destruct ((i + 1) mod 1000 =? 0); simpl; rewrite Htr2, Htr1; simpl;
      rewrite <- ?app_assoc; simpl; rewrite ?app_nil_r; done.
Qed.

(** ** The iterations and the periodic checkpoints of a loop *)

Lemma iterations_app `{Externals} (tr1 tr2 : list event) :
  iterations (tr1 ++ tr2) = iterations tr1 ++ iterations tr2.
Proof. apply omap_app. Qed.

Lemma periodic_saves_app `{Externals} (tr1 tr2 : list event) :
  periodic_saves (tr1 ++ tr2) = periodic_saves tr1 ++ periodic_saves tr2.
Proof. apply omap_app. Qed.

Lemma update_events_quiet `{Externals} opt sched :
  iterations (update_events opt sched) = [] ∧
  periodic_saves (update_events opt sched) = [].
Proof.
  unfold update_events.
  destruct (_ && _); [destruct sched|destruct (str_in _ _)]; done.
Qed.

Lemma validation_events_quiet `{Externals} opt i st :
  iterations (validation_events opt i st) = [] ∧
  periodic_saves (validation_events opt i st) = [].
Proof.
  unfold validation_events.
  destruct (Qlt_bool _ _), (Qlt_bool _ _); done.
Qed.

Lemma iteration_structure `{Externals} opt i st :
  valInterval opt ≠ 0 →
  schedule_bound opt st →
  ∃ st', iteration opt i st = (Ok tt, st') ∧
         schedule_bound opt st' ∧
         iterations (st_trace st') = iterations (st_trace st) ++ [i] ∧
         periodic_saves (st_trace st') =
           periodic_saves (st_trace st)
           ++ (if (i + 1) mod 1000 =? 0 then [(periodic_path opt i, i)] else []).
Proof.
  intros Hv Hb.
  destruct (iteration_trace opt i st Hv Hb) as (st1 & st' & _ & Hrun & Hb' & Htr).
  exists st'. split; [exact Hrun|]. split; [exact Hb'|].
  rewrite Htr. clear Htr.
  destruct (update_events_quiet opt (st_optimizer_schedule st)) as [Hu1 Hu2].
  destruct (validation_events_quiet opt i st1) as [Hv1 Hv2].
  split.
  - rewrite iterations_app. f_equal.
    change (Iteration i :: ?l) with ([Iteration i] ++ l).
    rewrite !iterations_app, Hu1.
    destruct (validation_due opt i), ((i + 1) mod 1000 =? 0); rewrite ?Hv1; done.
  - rewrite periodic_saves_app. f_equal.
    change (Iteration i :: ?l) with ([Iteration i] ++ l).
    rewrite !periodic_saves_app, Hu2.
    destruct (validation_due opt i), ((i + 1) mod 1000 =? 0); rewrite ?Hv2; done.
Qed.

Lemma loop_structure `{Externals} opt n : ∀ i st,
  valInterval opt ≠ 0 →
  schedule_bound opt st →
  ∃ st', loop opt n i st = (Ok tt, st') ∧
         schedule_bound opt st' ∧
         iterations (st_trace st') = iterations (st_trace st) ++ seqZ i (Z.of_nat n) ∧
         periodic_saves (st_trace st') =
           periodic_saves (st_trace st)
           ++ ((λ j, (periodic_path opt j, j))
                 <$> filter (λ j, (j + 1) mod 1000 = 0) (seqZ i (Z.of_nat n))).
Proof.
  induction n as [|n IH]; intros i st Hv Hb.
  - exists st. simpl. by rewrite !app_nil_r.
  - destruct (iteration_structure opt i st Hv Hb) as (st1 & Hrun1 & Hb1 & Hit1 & Hps1).
    destruct (IH (i + 1) st1 Hv Hb1) as (st2 & Hrun2 & Hb2 & Hit2 & Hps2).
    exists st2. split; [|split; [exact Hb2|]].
    { simpl. unfold bind at 1. rewrite Hrun1. exact Hrun2. }
    rewrite (seqZ_cons i (Z.of_nat (S n))) by lia.
    replace (Z.pred (Z.of_nat (S n))) with (Z.of_nat n) by lia.
    replace (Z.succ i) with (i + 1) by lia.
    split.
    + rewrite Hit2, Hit1, <- app_assoc. reflexivity.
    + rewrite Hps2, Hps1, <- app_assoc. f_equal.
      rewrite filter_cons.
      destruct (Z.eqb_spec ((i + 1) mod 1000) 0) as [Heq|Hne].
      * rewrite decide_True by done. reflexivity.
      * rewrite decide_False by done. reflexivity.
Qed.

Lemma seqZ_to_nat (i d : Z) : seqZ i (Z.of_nat (Z.to_nat d)) = seqZ i d.
Proof. unfold seqZ. by rewrite Nat2Z.id. Qed.

(** X1. When the validation test and the update can run (non-zero
    [valInterval], [optimizer_schedule] bound on the warmup path), the
    training loop completes and enters exactly the iterations
    [start_iter, ..., num_iter - 1], each once and in this order; when
    [start_iter >= num_iter] it enters none. *)
Theorem training_loop_runs_the_range `{Externals} opt st :
  valInterval opt ≠ 0 →
  schedule_bound opt st →
  ∃ st', training_loop opt st = (Ok tt, st') ∧
         iterations (st_trace st') =
           iterations (st_trace st)
           ++ seqZ (st_start_iter st) (num_iter opt - st_start_iter st).
Proof.
  intros Hv Hb. unfold training_loop. unfold bind at 1. unfold get at 1. simpl.
  destruct (loop_structure opt (Z.to_nat (num_iter opt - st_start_iter st))
              (st_start_iter st) st Hv Hb) as (st' & Hrun & _ & Hit & _).
  exists st'. split; [exact Hrun|]. by rewrite Hit, seqZ_to_nat.
Qed.

Lemma training_loop_runs_the_range_witness :
  let W := toy accuracies_run in
  let opt := toy_options "" "" 5 10 in
  ∃ st', @training_loop W opt (set_start_iter 2 (toy_state accuracies_run opt ∅))
         = (Ok tt, st') ∧
         iterations (st_trace st') = [2; 3; 4].
Proof.
  intros W opt.
  destruct (@training_loop_runs_the_range W opt
              (set_start_iter 2 (toy_state accuracies_run opt ∅)))
    as (st' & Hrun & Hit).
  - discriminate.
  - intros Hw. vm_compute in Hw. discriminate.
  - exists st'. split; [exact Hrun|]. rewrite Hit. reflexivity.
Defined.

(** X2. The periodic checkpoint follows the iteration number alone: a
    completed loop writes a full checkpoint after exactly the iterations [j]
    of its range with [(j+1) mod 1000 = 0], in order, to the file
    [iter_<j+1>.pth] and with [j] as its step, whatever [valInterval] is. *)
Theorem periodic_checkpoint_cadence `{Externals} opt n i st :
  valInterval opt ≠ 0 →
  schedule_bound opt st →
  ∃ st', loop opt n i st = (Ok tt, st') ∧
         periodic_saves (st_trace st') =
           periodic_saves (st_trace st)
           ++ ((λ j, (saved_models opt ("iter_" +:+ pretty (j + 1) +:+ ".pth"), j))
                 <$> filter (λ j, (j + 1) mod 1000 = 0) (seqZ i (Z.of_nat n))).
Proof.
  intros Hv Hb.
  destruct (loop_structure opt n i st Hv Hb) as (st' & Hrun & _ & _ & Hps). eauto.
Qed.

Lemma periodic_checkpoint_cadence_witness :
  let W := toy accuracies_run in
  let opt := toy_options "" "" 2500 7 in
  ∃ st', @loop W opt 2500 0 (toy_state accuracies_run opt ∅) = (Ok tt, st') ∧
         periodic_saves (st_trace st') =
           [("./saved_models/demo/iter_1000.pth", 999);
            ("./saved_models/demo/iter_2000.pth", 1999)].
Proof.
  intros W opt.
  destruct (@periodic_checkpoint_cadence W opt 2500%nat 0 (toy_state accuracies_run opt ∅))
    as (st' & Hrun & Hps).
  - discriminate.
  - intros Hw. vm_compute in Hw. discriminate.
  - exists st'. split; [exact Hrun|]. rewrite Hps. vm_compute. reflexivity.
Defined.

(** ** A zero validation interval *)

(** Iteration 0 never evaluates the modulus: it completes for any
    [valInterval], validates nothing and writes nothing. *)
Lemma iteration_zero `{Externals} opt st :
  schedule_bound opt st →
  ∃ st', iteration opt 0 st = (Ok tt, st') ∧
         schedule_bound opt st' ∧
         st_files st' = st_files st ∧
         st_trace st' =
           st_trace st ++ Iteration 0 :: update_events opt (st_optimizer_schedule st).
Proof.
  intros Hb.
  assert (Hb0 : schedule_bound opt (log_event (Iteration 0) st)) by exact Hb.
  destruct (update_parameters_run opt
              (backward 0 (st_model (log_event (Iteration 0) st)))
              _ Hb0) as (st1 & Hrun1 & Hb1 & _ & _ & Hf1 & Htr1).
  exists st1. split; [|split; [exact Hb1|split; [exact Hf1|]]].
  - unfold iteration.
    unfold bind at 1. unfold modify at 1. simpl.
    unfold bind at 1. unfold get at 1. simpl.
    unfold bind at 1. simpl in Hrun1. rewrite Hrun1.
    unfold validation_part, periodic_save. run. reflexivity.
  - rewrite Htr1. simpl. by rewrite <- app_assoc.
Qed.

(** A later iteration raises on the modulus, after its update and before
    any validation or checkpoint. *)
Lemma iteration_zero_interval `{Externals} opt i st :
  valInterval opt = 0 →
  0 < i →
  schedule_bound opt st →
  ∃ st', iteration opt i st = (Raise ZeroDivisionError, st') ∧
         st_files st' = st_files st ∧
         st_trace st' =
           st_trace st ++ Iteration i :: update_events opt (st_optimizer_schedule st).
Proof.
  intros Hv Hi Hb.
  assert (Hb0 : schedule_bound opt (log_event (Iteration i) st)) by exact Hb.
  destruct (update_parameters_run opt
              (backward i (st_model (log_event (Iteration i) st)))
              _ Hb0) as (st1 & Hrun1 & Hb1 & _ & _ & Hf1 & Htr1).
  exists st1. split; [|split; [exact Hf1|]].
  - unfold iteration.
    unfold bind at 1. unfold modify at 1. simpl.
    unfold bind at 1. unfold get at 1. simpl.
    unfold bind at 1. simpl in Hrun1. rewrite Hrun1.
    unfold bind at 1. by rewrite (validation_part_zero_interval opt i st1 Hv Hi).
  - rewrite Htr1. simpl. by rewrite <- app_assoc.
Qed.

(** X3. With [valInterval = 0] the run does not fail at once: the test
    [i > 0 and ...] skips the modulus on iteration 0, and the first iteration
    [i > 0] raises [ZeroDivisionError] after its parameter update. From a
    start iteration [s >= 0] with an iteration above 0 left to run, the loop
    enters iteration [s] (and iteration 1 too when [s = 0]), validates
    nothing, writes no file, and raises. *)
Theorem zero_interval_raises_after_update `{Externals} opt st :
  valInterval opt = 0 →
  schedule_bound opt st →
  0 ≤ st_start_iter st →
  Z.max (st_start_iter st) 1 < num_iter opt →
  ∃ st', training_loop opt st = (Raise ZeroDivisionError, st') ∧
         iterations (st_trace st') =
           iterations (st_trace st)
           ++ seqZ (st_start_iter st) (if st_start_iter st =? 0 then 2 else 1) ∧
         validations (st_trace st') = validations (st_trace st) ∧
         st_files st' = st_files st.
Proof.
  intros Hv Hb H0 Hlt. unfold training_loop. unfold bind at 1. unfold get at 1. simpl.
  destruct (Z.eqb_spec (st_start_iter st) 0) as [Hs|Hs].
  - rewrite Hs in *.
    destruct (Z.to_nat (num_iter opt - 0)) as [|[|n]] eqn:Hn; [lia|lia|].
    destruct (iteration_zero opt st Hb) as (st1 & Hrun1 & Hb1 & Hf1 & Htr1).
    destruct (iteration_zero_interval opt 1 st1 Hv ltac:(lia) Hb1)
      as (st2 & Hrun2 & Hf2 & Htr2).
    exists st2. split; [|split; [|split]].
    + simpl. unfold bind at 1. rewrite Hrun1. simpl.
      change (0 + 1) with 1. unfold bind at 1. by rewrite Hrun2.
    + rewrite Htr2, Htr1.
      change (Iteration ?j :: ?l) with ([Iteration j] ++ l).
      rewrite !iterations_app.
      rewrite !(proj1 (update_events_quiet opt _)), <- !app_assoc. reflexivity.
    + rewrite Htr2, Htr1.
      change (Iteration ?j :: ?l) with ([Iteration j] ++ l).
      rewrite !validations_app.
      assert (Hq : ∀ sched, validations (update_events opt sched) = []).
      { intros sched. unfold update_events.
        destruct (_ && _); [destruct sched|destruct (str_in _ _)]; done. }
      rewrite !Hq. simpl. by rewrite !app_nil_r.
    + by rewrite Hf2, Hf1.
  - destruct (Z.to_nat (num_iter opt - st_start_iter st)) as [|n] eqn:Hn; [lia|].
    destruct (iteration_zero_interval opt (st_start_iter st) st Hv ltac:(lia) Hb)
      as (st1 & Hrun1 & Hf1 & Htr1).
    exists st1. split; [|split; [|split]].
    + simpl. unfold bind at 1. by rewrite Hrun1.
    + rewrite Htr1.
      change (Iteration ?j :: ?l) with ([Iteration j] ++ l).
      rewrite !iterations_app, (proj1 (update_events_quiet opt _)). reflexivity.
    + rewrite Htr1.
      change (Iteration ?j :: ?l) with ([Iteration j] ++ l).
      rewrite !validations_app.
      assert (Hq : ∀ sched, validations (update_events opt sched) = []).
      { intros sched. unfold update_events.
        destruct (_ && _); [destruct sched|destruct (str_in _ _)]; done. }
      rewrite Hq. simpl. by rewrite !app_nil_r.
    + exact Hf1.
Qed.

Lemma zero_interval_raises_after_update_witness :
  let W := toy accuracies_run in
  let opt := toy_options "" "" 30 0 in
  ∃ st', @training_loop W opt (toy_state accuracies_run opt ∅)
         = (Raise ZeroDivisionError, st') ∧
         iterations (st_trace st') = [0; 1] ∧
         validations (st_trace st') = [] ∧
         st_files st' = ∅.
Proof.
  intros W opt.
  destruct (@zero_interval_raises_after_update W opt (toy_state accuracies_run opt ∅))
    as (st' & Hrun & Hit & Hval & Hf).
  - reflexivity.
  - intros Hw. vm_compute in Hw. discriminate.
  - vm_compute. discriminate.
  - reflexivity.
  - exists st'. split; [exact Hrun|]. split; [|split]; assumption.
Defined.

(** ** More on the best-metric trackers *)

Lemma Qlt_bool_irrefl (x : Q) : Qlt_bool x x = false.
Proof. apply Qlt_bool_false. apply Qle_refl. Qed.

(** X4. The trackers are idempotent: a validation with the same two metrics
    as the one before it changes no variable and writes no file, because an
    equal value is no improvement. *)
Theorem keep_best_idempotent `{Externals} opt acc ed st :
  (keep_best opt acc ed ;; keep_best opt acc ed) st = keep_best opt acc ed st.
Proof.
  unfold bind. rewrite !keep_best_run.
  unfold track_norm_ED, track_accuracy, written.
  destruct (Qlt_bool (st_best_accuracy st) acc) eqn:Ha; simpl;
    destruct (Qlt_bool ed (st_best_norm_ED st)) eqn:Hd; simpl;
    rewrite ?Qlt_bool_irrefl, ?Ha, ?Hd; simpl;
    rewrite ?Qlt_bool_irrefl, ?Ha, ?Hd; reflexivity.
Qed.

Lemma validation_part_cases `{Externals} opt i st :
  validation_part opt i st = (Raise ZeroDivisionError, st) ∨
  validation_part opt i st = (Ok tt, st) ∨
  ∃ acc ed, validation_part opt i st
            = (Ok tt, (keep_best opt acc ed (log_event (Validation i acc ed) st)).2).
Proof.
  unfold validation_part, divides_py. run.
  destruct (0 <? i); simpl; [|by right; left].
  destruct (valInterval opt =? 0); simpl; [by left|].
  destruct ((i + 1) mod valInterval opt =? 0); simpl; [|by right; left].
  right; right. destruct (validation i (st_model st)) as [acc ed]. simpl.
  exists acc, ed. by rewrite keep_best_run.
Qed.

#[local] Instance bests_bound_preorder `{Externals} : PreOrder bests_bound.
Proof.
  split.
  - intros st. split; [reflexivity|]. exists []. by rewrite app_nil_r.
  - intros st1 st2 st3 [Hi12 (e1 & Ht1 & Hf1)] [Hi23 (e2 & Ht2 & Hf2)].
    split; [by etrans|]. exists (e1 ++ e2).
    split; [by rewrite Ht2, Ht1, app_assoc|].
    apply Forall_app. split; [|exact Hf2].
    eapply Forall_impl; [exact Hf1|]. intros [] Hx; try exact I.
    destruct Hx as [Ha Hd], Hi23 as [Ha23 Hd23]. split.
    + eapply Qle_trans; eassumption.
    + eapply Qle_trans; eassumption.
Qed.

#[local] Instance bests_attained_preorder `{Externals} : PreOrder bests_attained.
Proof.
  split.
  - intros st. exists []. rewrite app_nil_r. split; [done|]. split; by left.
  - intros st1 st2 st3 (e1 & Ht1 & Ha1 & Hd1) (e2 & Ht2 & Ha2 & Hd2).
    exists (e1 ++ e2). split; [by rewrite Ht2, Ht1, app_assoc|]. split.
    + destruct Ha2 as [Heq|(i & ed & Hin)].
      * rewrite Heq. destruct Ha1 as [?|(i & ed & Hin)]; [by left|].
        right. exists i, ed. apply elem_of_app. by left.
      * right. exists i, ed. apply elem_of_app. by right.
    + destruct Hd2 as [Heq|(i & acc & Hin)].
      * rewrite Heq. destruct Hd1 as [?|(i & acc & Hin)]; [by left|].
        right. exists i, acc. apply elem_of_app. by left.
      * right. exists i, acc. apply elem_of_app. by right.
Qed.

Lemma bests_bound_quiet `{Externals} st st' evs :
  st_best_accuracy st' = st_best_accuracy st →
  st_best_norm_ED st' = st_best_norm_ED st →
  st_trace st' = st_trace st ++ evs →
  Forall (λ e, match e with Validation _ _ _ => False | _ => True end) evs →
  bests_bound st st'.
Proof.
  intros Ha Hd Ht Hq. split; [by apply bests_improve_same|].
  exists evs. split; [exact Ht|].
  eapply Forall_impl; [exact Hq|]. by intros [].
Qed.

Lemma bests_attained_quiet `{Externals} st st' :
  st_best_accuracy st' = st_best_accuracy st →
  st_best_norm_ED st' = st_best_norm_ED st →
  trace_grows st st' →
  bests_attained st st'.
Proof.
  intros Ha Hd [evs Ht]. exists evs. split; [exact Ht|]. split; by left.
Qed.

Ltac open_lets :=
  repeat match goal with |- context [let '(_, _) := ?p in _] => destruct p end.

Ltac quiet_bound :=
  first
    [ eapply (bests_bound_quiet _ _ []);
      [open_lets; reflexivity | open_lets; reflexivity
      | open_lets; simpl; by rewrite app_nil_r | constructor ]
    | eapply (bests_bound_quiet _ _ [_]);
      [reflexivity | reflexivity | reflexivity | by repeat constructor ] ].

Ltac quiet_attained :=
  apply bests_attained_quiet; [open_lets; reflexivity | open_lets; reflexivity | same_trace].

Section TrackersOverTheLoop.
Context `{Externals}.

Lemma validation_part_bound opt i : preserves bests_bound (validation_part opt i).
Proof.
  intros st.
  destruct (validation_part_cases opt i st) as [->|[->|(acc & ed & ->)]];
    [reflexivity|reflexivity|]. cbn [snd].
  set (st0 := log_event (Validation i acc ed) st).
  pose proof (keep_best_improves opt acc ed st0) as Himp.
  destruct (keep_best_bests opt acc ed st0) as [Ha Hd].
  pose proof (keep_best_trace opt acc ed st0) as Htr.
  split; [exact Himp|].
  eexists. split.
  { rewrite Htr. unfold st0. simpl. rewrite <- app_assoc. reflexivity. }
  simpl. constructor.
  - rewrite Ha, Hd. unfold st0. simpl. split.
    + destruct (Qlt_bool (st_best_accuracy st) acc) eqn:Hb; [apply Qle_refl|].
      by apply Qlt_bool_false.
    + destruct (Qlt_bool ed (st_best_norm_ED st)) eqn:Hb; [apply Qle_refl|].
      by apply Qlt_bool_false.
  - apply Forall_app. split.
    + destruct (Qlt_bool (st_best_accuracy st) acc); by repeat constructor.
    + destruct (Qlt_bool ed (st_best_norm_ED st)); by repeat constructor.
Qed.

Lemma validation_part_attained opt i : preserves bests_attained (validation_part opt i).
Proof.
  intros st.
  destruct (validation_part_cases opt i st) as [->|[->|(acc & ed & ->)]];
    [reflexivity|reflexivity|]. cbn [snd].
  set (st0 := log_event (Validation i acc ed) st).
  destruct (keep_best_bests opt acc ed st0) as [Ha Hd].
  pose proof (keep_best_trace opt acc ed st0) as Htr.
  eexists. split.
  { rewrite Htr. unfold st0. simpl. rewrite <- app_assoc. reflexivity. }
  rewrite Ha, Hd. unfold st0. simpl. split.
  - destruct (Qlt_bool (st_best_accuracy st) acc); [|by left].
    right. exists i, ed. by left.
  - destruct (Qlt_bool ed (st_best_norm_ED st)) eqn:Hb; [|by left].
    right. exists i, acc. by left.
Qed.

Lemma save_checkpoint_bound c fpath : preserves bests_bound (save_checkpoint c fpath).
Proof.
  unfold save_checkpoint. apply preserves_modify. intros st.
  eapply (bests_bound_quiet _ _ [_]); [reflexivity..|by repeat constructor].
Qed.

Lemma save_checkpoint_attained c fpath : preserves bests_attained (save_checkpoint c fpath).
Proof.
  unfold save_checkpoint. apply preserves_modify. intros st.
  apply bests_attained_quiet; [reflexivity..|]. by exists [SaveCheckpoint fpath c].
Qed.

Lemma iteration_bound opt i : preserves bests_bound (iteration opt i).
Proof.
  unfold iteration, update_parameters, step_and_update_lr, do_optimizer_step,
    periodic_save.
  preserved_by quiet_bound;
    first [apply validation_part_bound | apply save_checkpoint_bound].
Qed.

Lemma iteration_attained opt i : preserves bests_attained (iteration opt i).
Proof.
  unfold iteration, update_parameters, step_and_update_lr, do_optimizer_step,
    periodic_save.
  preserved_by quiet_attained;
    first [apply validation_part_attained | apply save_checkpoint_attained].
Qed.

Lemma loop_bound opt n : ∀ i, preserves bests_bound (loop opt n i).
Proof.
  induction n as [|n IH]; intros i; simpl.
  - apply preserves_ret; apply _.
  - apply preserves_bind; [apply _|apply iteration_bound|intros _; apply IH].
Qed.

Lemma loop_attained opt n : ∀ i, preserves bests_attained (loop opt n i).
Proof.
  induction n as [|n IH]; intros i; simpl.
  - apply preserves_ret; apply _.
  - apply preserves_bind; [apply _|apply iteration_attained|intros _; apply IH].
Qed.

End TrackersOverTheLoop.

(** X5. After any stretch of the loop, ended or interrupted by an exception,
    the best accuracy is the maximum of its value before and of the
    accuracies validated meanwhile, and the best edit distance the minimum of
    its value before and of the edit distances validated meanwhile: each
    bounds every validation of the stretch, and each is its former value or
    the metric of one of these validations. *)
Theorem bests_are_the_extremes `{Externals} opt n i st :
  ∃ evs,
    st_trace (loop opt n i st).2 = st_trace st ++ evs ∧
    (st_best_accuracy st <= st_best_accuracy (loop opt n i st).2)%Q ∧
    (st_best_norm_ED (loop opt n i st).2 <= st_best_norm_ED st)%Q ∧
    Forall (λ e, match e with
                 | Validation _ acc ed =>
                     (acc <= st_best_accuracy (loop opt n i st).2)%Q ∧
                     (st_best_norm_ED (loop opt n i st).2 <= ed)%Q
                 | _ => True
                 end) evs ∧
    (st_best_accuracy (loop opt n i st).2 = st_best_accuracy st ∨
     ∃ j ed, Validation j (st_best_accuracy (loop opt n i st).2) ed ∈ evs) ∧
    (st_best_norm_ED (loop opt n i st).2 = st_best_norm_ED st ∨
     ∃ j acc, Validation j acc (st_best_norm_ED (loop opt n i st).2) ∈ evs).
Proof.
  destruct (loop_bound opt n i st) as [[Ha Hd] (evs & Htr & Hall)].
  destruct (loop_attained opt n i st) as (evs' & Htr' & Hacc & Hed).
  assert (evs' = evs) as -> by (rewrite Htr in Htr'; by apply app_inv_head in Htr').
  exists evs. repeat split; assumption.
Qed.

(** ** The best-metric files follow the running bests *)

Lemma append_inv_head (p a b : string) : p +:+ a = p +:+ b → a = b.
Proof. induction p as [|c p IH]; simpl; [done|]. intros [= Heq]. by apply IH. Qed.

Lemma saved_models_inj opt (f1 f2 : string) :
  saved_models opt f1 = saved_models opt f2 → f1 = f2.
Proof.
  unfold saved_models. intros Heq.
  repeat (apply append_inv_head in Heq). exact Heq.
Qed.

Lemma periodic_path_not_best opt i (f : string) :
  f = "best_accuracy.pth" ∨ f = "best_norm_ED.pth" →
  periodic_path opt i ≠ saved_models opt f.
Proof.
  intros Hf Heq. unfold periodic_path in Heq. apply saved_models_inj in Heq.
  destruct Hf as [-> | ->]; simpl in Heq; discriminate.
Qed.

#[local] Typeclasses Opaque accuracy_file_in_step norm_ED_file_in_step.

#[local] Instance accuracy_file_in_step_preorder `{Externals} opt :
  PreOrder (accuracy_file_in_step opt).
Proof.
  split.
  - intros st. by left.
  - intros st1 st2 st3 [[Hf1 Hb1]|[sd1 Hs1]] [[Hf2 Hb2]|[sd2 Hs2]].
    + left. split; congruence.
    + right. eauto.
    + right. exists sd1. rewrite Hf2, Hb2. exact Hs1.
    + right. eauto.
Qed.

#[local] Instance norm_ED_file_in_step_preorder `{Externals} opt :
  PreOrder (norm_ED_file_in_step opt).
Proof.
  split.
  - intros st. by left.
  - intros st1 st2 st3 [[Hf1 Hb1]|[sd1 Hs1]] [[Hf2 Hb2]|[sd2 Hs2]].
    + left. split; congruence.
    + right. eauto.
    + right. exists sd1. rewrite Hf2, Hb2. exact Hs1.
    + right. eauto.
Qed.

Ltac untouched_file := left; split; open_lets; reflexivity.

Section FilesOverTheLoop.
Context `{Externals}.

Lemma keep_best_accuracy_file opt acc ed :
  preserves (accuracy_file_in_step opt) (keep_best opt acc ed).
Proof.
  intros st. rewrite keep_best_run. cbn [snd].
  assert (Hne : saved_models opt "best_norm_ED.pth" ≠ saved_models opt "best_accuracy.pth")
    by (intros Heq; apply saved_models_inj in Heq; discriminate).
  unfold track_norm_ED, track_accuracy, written, best_accuracy_checkpoint.
  destruct (Qlt_bool (st_best_accuracy st) acc); simpl;
    destruct (Qlt_bool ed _); unfold accuracy_file_in_step; simpl.
  - right. eexists. rewrite lookup_insert_ne by done. by rewrite lookup_insert_eq.
  - right. eexists. by rewrite lookup_insert_eq.
  - left. by rewrite lookup_insert_ne.
  - by left.
Qed.

Lemma keep_best_norm_ED_file opt acc ed :
  preserves (norm_ED_file_in_step opt) (keep_best opt acc ed).
Proof.
  intros st. rewrite keep_best_run. cbn [snd].
  assert (Hne : saved_models opt "best_accuracy.pth" ≠ saved_models opt "best_norm_ED.pth")
    by (intros Heq; apply saved_models_inj in Heq; discriminate).
  unfold track_norm_ED, track_accuracy, written, best_norm_ED_checkpoint.
  destruct (Qlt_bool (st_best_accuracy st) acc); simpl;
    destruct (Qlt_bool ed _); unfold norm_ED_file_in_step; simpl.
  - right. eexists. by rewrite lookup_insert_eq.
  - left. by rewrite lookup_insert_ne.
  - right. eexists. by rewrite lookup_insert_eq.
  - by left.
Qed.

Lemma validation_part_accuracy_file opt i :
  preserves (accuracy_file_in_step opt) (validation_part opt i).
Proof.
  intros st.
  destruct (validation_part_cases opt i st) as [->|[->|(acc & ed & ->)]];
    [by left|by left|]. cbn [snd].
  apply (keep_best_accuracy_file opt acc ed (log_event (Validation i acc ed) st)).
Qed.

Lemma validation_part_norm_ED_file opt i :
  preserves (norm_ED_file_in_step opt) (validation_part opt i).
Proof.
  intros st.
  destruct (validation_part_cases opt i st) as [->|[->|(acc & ed & ->)]];
    [by left|by left|]. cbn [snd].
  apply (keep_best_norm_ED_file opt acc ed (log_event (Validation i acc ed) st)).
Qed.

Lemma periodic_save_accuracy_file opt i :
  preserves (accuracy_file_in_step opt) (periodic_save opt i).
Proof.
  intros st. rewrite periodic_save_explicit. cbn [snd].
  destruct (_ =? 0); [|by left].
  left. unfold written. simpl. split; [|done].
  apply lookup_insert_ne, periodic_path_not_best. by left.
Qed.

Lemma periodic_save_norm_ED_file opt i :
  preserves (norm_ED_file_in_step opt) (periodic_save opt i).
Proof.
  intros st. rewrite periodic_save_explicit. cbn [snd].
  destruct (_ =? 0); [|by left].
  left. unfold written. simpl. split; [|done].
  apply lookup_insert_ne, periodic_path_not_best. by right.
Qed.

Lemma iteration_accuracy_file opt i :
  preserves (accuracy_file_in_step opt) (iteration opt i).
Proof.
  unfold iteration, update_parameters, step_and_update_lr, do_optimizer_step.
  preserved_by untouched_file;
    first [apply validation_part_accuracy_file | apply periodic_save_accuracy_file].
Qed.

Lemma iteration_norm_ED_file opt i :
  preserves (norm_ED_file_in_step opt) (iteration opt i).
Proof.
  unfold iteration, update_parameters, step_and_update_lr, do_optimizer_step.
  preserved_by untouched_file;
    first [apply validation_part_norm_ED_file | apply periodic_save_norm_ED_file].
Qed.

Lemma loop_accuracy_file opt n : ∀ i, preserves (accuracy_file_in_step opt) (loop opt n i).
Proof.
  induction n as [|n IH]; intros i; simpl.
  - apply preserves_ret; apply _.
  - apply preserves_bind; [apply _|apply iteration_accuracy_file|intros _; apply IH].
Qed.

Lemma loop_norm_ED_file opt n : ∀ i, preserves (norm_ED_file_in_step opt) (loop opt n i).
Proof.
  induction n as [|n IH]; intros i; simpl.
  - apply preserves_ret; apply _.
  - apply preserves_bind; [apply _|apply iteration_norm_ED_file|intros _; apply IH].
Qed.

End FilesOverTheLoop.

(** X6. The two best-metric files stay in step with the two variables over
    any stretch of the loop, ended or interrupted: either [best_accuracy.pth]
    is as it was and [best_accuracy] has not changed, or the file holds a
    weights-only snapshot (no optimizer state, no step, no edit distance)
    whose accuracy is the current [best_accuracy]; and the same for
    [best_norm_ED.pth] and [best_norm_ED]. The periodic checkpoints and the
    other tracker never write to these files. *)
Theorem best_files_in_step `{Externals} opt n i st :
  ((st_files (loop opt n i st).2 !! saved_models opt "best_accuracy.pth"
      = st_files st !! saved_models opt "best_accuracy.pth" ∧
    st_best_accuracy (loop opt n i st).2 = st_best_accuracy st) ∨
   (∃ sd, st_files (loop opt n i st).2 !! saved_models opt "best_accuracy.pth"
          = Some (FileDict (Checkpoint (Some sd) None None
                              (Some (st_best_accuracy (loop opt n i st).2)) None)))) ∧
  ((st_files (loop opt n i st).2 !! saved_models opt "best_norm_ED.pth"
      = st_files st !! saved_models opt "best_norm_ED.pth" ∧
    st_best_norm_ED (loop opt n i st).2 = st_best_norm_ED st) ∨
   (∃ sd, st_files (loop opt n i st).2 !! saved_models opt "best_norm_ED.pth"
          = Some (FileDict (Checkpoint (Some sd) None None
                              None (Some (st_best_norm_ED (loop opt n i st).2)))))).
Proof.
  split.
  - apply (loop_accuracy_file opt n i st).
  - apply (loop_norm_ED_file opt n i st).
Qed.

(** ** More on the weight transplant *)

Lemma transplant_explicit (m : model) (pretrain_dict : gmap string tensor) :
  NoDup m.*1 →
  transplant m pretrain_dict
  = Ok ((λ e : string * tensor, (e.1, transplant_entry pretrain_dict e)) <$> m).
Proof.
  intros Hnd.
  destruct (transplant_ok m pretrain_dict Hnd) as (m' & Htr & Hnames & Hlk).
  rewrite Htr. f_equal.
  unfold transplant in Htr.
  set (md := filter _ pretrain_dict ∪ get_state_dict m) in Htr.
  unfold load_state_dict in Htr. case_match; [|done]. injection Htr as <-.
  apply list_fmap_ext. intros idx [n p] Hidx. simpl. f_equal.
  assert (Hin : (n, p) ∈ m) by (eapply list_elem_of_lookup_2; eauto).
  pose proof (state_dict_lookup m n p Hnd Hin) as Hsd.
  assert (Hmd : md !! n = transplanted m pretrain_dict n).
  { unfold md. rewrite lookup_union, filter_same_size_lookup.
    unfold transplanted, same_size_in. simpl. rewrite Hsd.
    destruct (pretrain_dict !! n) as [v|]; simpl; [|done].
    case_bool_decide; done. }
  rewrite Hmd. unfold transplanted, transplant_entry. simpl. rewrite Hsd.
  destruct (pretrain_dict !! n) as [v|]; simpl; [|done].
  case_bool_decide; done.
Qed.

Lemma transplant_entry_size pretrain_dict (e : string * tensor) :
  size (transplant_entry pretrain_dict e) = size e.2.
Proof.
  unfold transplant_entry. destruct (pretrain_dict !! e.1) as [v|]; [|done].
  case_bool_decide; done.
Qed.

Lemma transplant_entry_again pretrain_dict (e : string * tensor) :
  transplant_entry pretrain_dict (e.1, transplant_entry pretrain_dict e)
  = transplant_entry pretrain_dict e.
Proof.
  unfold transplant_entry. simpl. destruct (pretrain_dict !! e.1) as [v|]; [|done].
  destruct (decide (size e.2 = size v)) as [Hs|Hs].
  - rewrite (bool_decide_eq_true_2 _ Hs). by rewrite bool_decide_eq_true_2.
  - rewrite (bool_decide_eq_false_2 _ Hs). by rewrite bool_decide_eq_false_2.
Qed.

Lemma rewritten_names (f : string * tensor → tensor) (m : model) :
  ((λ e : string * tensor, (e.1, f e)) <$> m).*1 = m.*1.
Proof. induction m as [|e m IH]; [done|]. simpl. by f_equal. Qed.

Lemma same_shape_fmap (f : string * tensor → tensor) (m : model) :
  (∀ e, size (f e) = size e.2) →
  same_shape m ((λ e : string * tensor, (e.1, f e)) <$> m).
Proof.
  intros Hf. unfold same_shape. induction m as [|e m IH]; [constructor|].
  simpl. constructor; [|exact IH]. split; [done|apply Hf].
Qed.

(** X7. The weight transplant keeps the shape of the model and is
    idempotent: for a model with distinct names it returns a model with the
    same names in the same order and every parameter at its former size,
    whatever the checkpoint holds, and transplanting the same checkpoint
    again changes nothing. *)
Theorem transplant_keeps_shape (m : model) (pretrain_dict : gmap string tensor) :
  NoDup m.*1 →
  ∃ m', transplant m pretrain_dict = Ok m' ∧
        Forall2 (λ old new : string * tensor,
                   new.1 = old.1 ∧ size new.2 = size old.2) m m' ∧
        transplant m' pretrain_dict = Ok m'.
Proof.
  intros Hnd. eexists. split; [by apply transplant_explicit|]. split.
  - apply same_shape_fmap, transplant_entry_size.
  - rewrite transplant_explicit.
    2:{ by rewrite rewritten_names. }
    f_equal. rewrite <- list_fmap_compose. apply list_fmap_ext.
    intros idx e _. simpl. f_equal. apply transplant_entry_again.
Qed.

Lemma transplant_keeps_shape_witness :
  ∃ m', transplant toy_model toy_pretrained = Ok m' ∧
        Forall2 (λ old new : string * tensor,
                   new.1 = old.1 ∧ size new.2 = size old.2) toy_model m' ∧
        transplant m' toy_pretrained = Ok m'.
Proof.
  apply (transplant_keeps_shape toy_model toy_pretrained).
  apply (bool_decide_unpack _). vm_compute. exact I.
Defined.

Lemma load_state_dict_inv (m m1 : model) (sd : gmap string tensor) :
  load_state_dict m sd = Ok m1 →
  (∀ n p, (n, p) ∈ m → ∃ v, sd !! n = Some v ∧ size v = size p) ∧
  (∀ k, is_Some (sd !! k) → k ∈ m.*1) ∧
  m1 = (λ e : string * tensor, (e.1, default e.2 (sd !! e.1))) <$> m.
Proof.
  unfold load_state_dict.
  destruct (forallb (entry_matches sd) m) eqn:Hent; simpl; [|done].
  destruct (forallb (known_key m) (map fst (map_to_list sd))) eqn:Hkeys; [|done].
  intros [= <-]. split; [|split; [|done]].
  - intros n p Hin. rewrite forallb_forall in Hent.
    specialize (Hent (n, p)). unfold entry_matches in Hent. simpl in Hent.
    destruct (sd !! n) as [v|]; [|by discriminate Hent; apply list_elem_of_In].
    exists v. split; [done|]. eapply bool_decide_eq_true_1, Hent.
    by apply list_elem_of_In.
  - intros k [v Hv]. rewrite forallb_forall in Hkeys.
    eapply bool_decide_eq_true_1, (Hkeys k). apply in_map_iff.
    exists (k, v). split; [done|]. apply list_elem_of_In. by apply elem_of_map_to_list.
Qed.

(** X8. The transplant extends the strict load: whenever
    [model.load_state_dict] accepts a parameter map (the same names, the same
    sizes), the transplant of that map completes with the very same
    parameters. *)
Theorem transplant_extends_strict_load (m m1 : model) (sd : gmap string tensor) :
  NoDup m.*1 →
  load_state_dict m sd = Ok m1 →
  transplant m sd = Ok m1.
Proof.
  intros Hnd Hload. rewrite (transplant_explicit m sd Hnd). f_equal.
  destruct (load_state_dict_inv m m1 sd Hload) as (Hent & _ & ->).
  apply list_fmap_ext. intros idx [n p] Hidx. simpl. f_equal.
  destruct (Hent n p) as (v & Hv & Hs); [by eapply list_elem_of_lookup_2|].
  unfold transplant_entry. simpl. rewrite Hv. simpl.
  by rewrite bool_decide_eq_true_2.
Qed.

Lemma transplant_extends_strict_load_witness :
  transplant toy_model toy_full_dict
  = Ok [ ("conv.weight", Tensor [2; 2]%nat [8; 8; 8; 8]%Q);
         ("conv.bias", Tensor [2]%nat [6; 6]%Q);
         ("bn.weight", Tensor [2]%nat [2; 2]%Q) ].
Proof.
  apply transplant_extends_strict_load.
  - apply (bool_decide_unpack _). vm_compute. exact I.
  - vm_compute. reflexivity.
Defined.

(** ** Transplant and resume together *)

Lemma same_shape_names (m m' : model) : same_shape m m' → m'.*1 = m.*1.
Proof. induction 1 as [|e e' m m' [Hn _] _ IH]; [done|]. simpl. by f_equal. Qed.

(** The strict load reads the names and sizes of the model only: on a model
    of the same shape it gives the same result. *)
Lemma load_state_dict_same_shape (m m' m1 : model) (sd : gmap string tensor) :
  same_shape m m' →
  load_state_dict m sd = Ok m1 →
  load_state_dict m' sd = Ok m1.
Proof.
  intros Hshape Hload.
  destruct (load_state_dict_inv m m1 sd Hload) as (Hent & Hkeys & ->).
  rewrite load_state_dict_ok.
  - f_equal. clear Hkeys Hload.
    induction Hshape as [|[n p] [n' p'] m m' [Hn Hs] _ IH]; [done|].
    simpl in Hn, Hs. subst n'. simpl.
    destruct (Hent n p) as (v & Hv & _); [left|]. rewrite Hv. simpl. f_equal.
    apply IH. intros n0 p0 Hin. apply Hent. by right.
  - intros n' p' Hin'. clear Hkeys Hload.
    induction Hshape as [|[n p] [n0 p0] m m' [Hn Hs] _ IH]; [by apply elem_of_nil in Hin'|].
    simpl in Hn, Hs. subst n0.
    apply elem_of_cons in Hin'. destruct Hin' as [[= -> ->]|Hin'].
    + destruct (Hent n p) as (v & Hv & Hsv); [left|]. exists v. split; [done|congruence].
    + apply IH; [|done]. intros n1 p1 Hin. apply Hent. by right.
  - intros k Hk. rewrite (same_shape_names m m' Hshape). by apply Hkeys.
Qed.

(** X9. When both a weights file and a resume checkpoint are given and the
    resume succeeds, the transplant has no effect on the outcome: the state
    after the setup is the one that the resume alone gives, because the
    strict load of the resume overwrites every parameter and the transplant
    changes nothing else. *)
Theorem resume_overrides_transplant `{Externals} opt st f pretrain_dict c sd m1 s :
  load_weights opt ≠ "" →
  st_files st !! load_weights opt = Some f →
  file_state_dict f = Some pretrain_dict →
  NoDup (st_model st).*1 →
  continue_model opt ≠ "" →
  st_files st !! continue_model opt = Some (FileDict c) →
  ck_state_dict c = Some sd →
  ck_step c = Some s →
  load_state_dict (st_model st) sd = Ok m1 →
  prepare opt st = (continue_training opt ;; set_current_steps opt) st ∧
  (prepare opt st).1 = Ok tt ∧
  st_model (prepare opt st).2 = m1.
Proof.
  intros Hlw Hf Hpre Hnd Hcm Hc Hsd Hstep Hload.
  pose proof (transplant_explicit (st_model st) pretrain_dict Hnd) as Htr.
  set (m' := (λ e : string * tensor, (e.1, transplant_entry pretrain_dict e))
               <$> st_model st) in Htr.
  assert (Hshape : same_shape (st_model st) m')
    by apply same_shape_fmap, transplant_entry_size.
  pose proof (load_pretrained_run opt st f pretrain_dict m' Hlw Hf Hpre Htr) as Hrun1.
  pose proof (load_state_dict_same_shape _ _ _ _ Hshape Hload) as Hload'.
  pose proof (continue_training_run opt (set_model m' st) c sd m1 s Hcm Hc Hsd Hload' Hstep)
    as Hrun2.
  pose proof (continue_training_run opt st c sd m1 s Hcm Hc Hsd Hload Hstep) as Hrun3.
  assert (Heq : prepare opt st = (continue_training opt ;; set_current_steps opt) st).
  { unfold prepare. unfold bind at 1. rewrite Hrun1.
    unfold bind. by rewrite Hrun2, Hrun3. }
  split; [exact Heq|]. rewrite Heq. unfold bind. rewrite Hrun3.
  destruct (set_current_steps_run opt (resumed st m1 s c))
    as (st' & Hset & Hm & _). rewrite Hset. simpl. by rewrite Hm.
Qed.

Lemma resume_overrides_transplant_witness :
  let W := toy accuracies_run in
  let opt := toy_options "w.pth" "ckpt.pth" 2000 10 in
  let c := @Checkpoint W (Some toy_full_dict) None (Some 999) None None in
  let st := toy_state accuracies_run opt
              {[ "w.pth" := @FileStateDict W toy_pretrained; "ckpt.pth" := FileDict c ]} in
  @prepare W opt st = (@continue_training W opt ;; @set_current_steps W opt) st ∧
  (@prepare W opt st).1 = Ok tt ∧
  st_model (@prepare W opt st).2
  = [ ("conv.weight", Tensor [2; 2]%nat [8; 8; 8; 8]%Q);
      ("conv.bias", Tensor [2]%nat [6; 6]%Q);
      ("bn.weight", Tensor [2]%nat [2; 2]%Q) ].
Proof.
  intros W opt c st.
  apply (@resume_overrides_transplant W opt st (FileStateDict toy_pretrained)
           toy_pretrained c toy_full_dict _ 999).
  - discriminate.
  - vm_compute. reflexivity.
  - reflexivity.
  - apply (bool_decide_unpack _). vm_compute. exact I.
  - discriminate.
  - vm_compute. reflexivity.
  - reflexivity.
  - reflexivity.
  - vm_compute. reflexivity.
Defined.

(** ** The loop reads the core of the state only *)

Section Alike.
Context `{Externals}.







End Alike.




Section LoopAlike.
Context `{Externals}.








End LoopAlike.



(** ** The periodic checkpoint and the resume *)

#[local] Instance same_optimizer_frame_preorder `{Externals} : PreOrder same_optimizer_frame.
Proof.
  split.
  - intros st. by split.
  - intros st1 st2 st3 [? ?] [? ?]. unfold same_optimizer_frame. split; congruence.
Qed.



Lemma periodic_path_nonempty opt j : periodic_path opt j ≠ "".
Proof. unfold periodic_path, saved_models. simpl. discriminate. Qed.

Lemma load_own_state_dict (m : model) :
  NoDup m.*1 → load_state_dict m (get_state_dict m) = Ok m.
Proof.
  intros Hnd. rewrite load_state_dict_ok.
  - f_equal. etrans; [|apply (list_fmap_id m)].
    apply Forall_fmap_ext_1, Forall_forall. intros [n p] Hin.
    simpl. by rewrite (state_dict_lookup m n p Hnd Hin).
  - intros n p Hin. exists p. split; [by apply state_dict_lookup|done].
  - intros k [t Hk]. apply elem_of_list_to_map_2 in Hk.
    apply list_elem_of_fmap. by exists (k, t).
Qed.




Section FrameOverTheLoop.
Context `{Externals}.





End FrameOverTheLoop.

(** X11. Round trip of the periodic checkpoint: when iteration [j] is one
    where the periodic save writes ([(j + 1) mod 1000 = 0]), a process whose
    file system holds the file that this save wrote from the state [st], and
    whose model has the names and sizes of the saved one, resumes from it
    without exception and gets back the parameters, the optimizer state and
    the two bests of [st], with [start_iter = j + 1]. (The parameter names
    of a model are distinct.) *)
Theorem periodic_checkpoint_resumes `{Externals} opt opt' j st st0 :
  (j + 1) mod 1000 = 0 →
  NoDup (st_model st).*1 →
  same_shape (st_model st) (st_model st0) →
  continue_model opt' = periodic_path opt j →
  st_files st0 !! periodic_path opt j
  = st_files (periodic_save opt j st).2 !! periodic_path opt j →
  ∃ st0', continue_training opt' st0 = (Ok tt, st0') ∧
          st_model st0' = st_model st ∧
          state (st_optimizer st0') = state (st_optimizer st) ∧
          st_best_accuracy st0' = st_best_accuracy st ∧
          st_best_norm_ED st0' = st_best_norm_ED st ∧
          st_start_iter st0' = j + 1.
Proof.
  intros Hj Hnd Hshape Hpath Hf.
  rewrite periodic_save_explicit in Hf. apply Z.eqb_eq in Hj. rewrite Hj in Hf.
  unfold written in Hf. simpl in Hf. rewrite lookup_insert_eq in Hf.
  exists (resumed st0 (st_model st) j (periodic_checkpoint j st)).
  split; [|done].
  apply continue_training_run with (sd := get_state_dict (st_model st)).
  - rewrite Hpath. apply periodic_path_nonempty.
  - by rewrite Hpath.
  - reflexivity.
  - apply (load_state_dict_same_shape (st_model st)); [exact Hshape|].
    by apply load_own_state_dict.
  - reflexivity.
Qed.

Lemma periodic_checkpoint_resumes_witness :
  let W := toy accuracies_run in
  let opt := toy_options "" "" 1000 10 in
  let opt' := toy_options "" "./saved_models/demo/iter_1000.pth" 2000 10 in
  let st := set_best_accuracy (6 # 10) (toy_state accuracies_run opt ∅) in
  let st0 := toy_state accuracies_run opt' (st_files (@periodic_save W opt 999 st).2) in
  ∃ st0', @continue_training W opt' st0 = (Ok tt, st0') ∧
          st_model st0' = st_model st ∧
          state (st_optimizer st0') = state (st_optimizer st) ∧
          st_best_accuracy st0' = (6 # 10)%Q ∧
          st_best_norm_ED st0' = st_best_norm_ED st ∧
          st_start_iter st0' = 1000.
Proof.
  intros W opt opt' st st0.
  apply (@periodic_checkpoint_resumes W opt opt' 999 st st0).
  - reflexivity.
  - apply (bool_decide_unpack _). vm_compute. exact I.
  - repeat constructor.
  - vm_compute. reflexivity.
  - reflexivity.
Defined.



(** ** Files that are missing or of the other kind *)

Lemma load_pretrained_missing `{Externals} opt st :
  st_files st !! load_weights opt = None → load_pretrained opt st = (Ok tt, st).
Proof.
  intros Hf. unfold load_pretrained, check_isfile. run. rewrite Hf.
  rewrite bool_decide_eq_false_2; [|by intros [? ?]].
  by rewrite andb_false_r.
Qed.

Lemma continue_training_missing `{Externals} opt st :
  continue_model opt ≠ "" →
  st_files st !! continue_model opt = None →
  continue_training opt st = (Raise (FileNotFoundError (continue_model opt)), st).
Proof.
  intros Hne Hf. unfold continue_training, torch_load.
  rewrite (nonempty_path _ Hne). run. by rewrite Hf.
Qed.

(** X13. The two file options treat a missing file differently: a
    [load_weights] path with no file behind it is skipped without a word
    (the run goes on with the initialised weights), whereas a
    [continue_model] path with no file raises [FileNotFoundError] before
    any variable is assigned, and so does the setup as a whole. *)
Theorem missing_file_skipped_or_raised `{Externals} opt st :
  st_files st !! load_weights opt = None →
  continue_model opt ≠ "" →
  st_files st !! continue_model opt = None →
  load_pretrained opt st = (Ok tt, st) ∧
  continue_training opt st = (Raise (FileNotFoundError (continue_model opt)), st) ∧
  prepare opt st = (Raise (FileNotFoundError (continue_model opt)), st).
Proof.
  intros Hw Hne Hc.
  pose proof (load_pretrained_missing opt st Hw) as Hlp.
  pose proof (continue_training_missing opt st Hne Hc) as Hct.
  split; [exact Hlp|]. split; [exact Hct|].
  unfold prepare, bind. rewrite Hlp. cbv beta iota. by rewrite Hct.
Qed.

Lemma missing_file_skipped_or_raised_witness :
  let W := toy accuracies_run in
  let opt := toy_options "weights.pth" "ckpt.pth" 30 10 in
  let st := toy_state accuracies_run opt ∅ in
  @load_pretrained W opt st = (Ok tt, st) ∧
  @continue_training W opt st = (Raise (FileNotFoundError "ckpt.pth"), st) ∧
  @prepare W opt st = (Raise (FileNotFoundError "ckpt.pth"), st).
Proof.
  intros W opt st.
  apply (@missing_file_skipped_or_raised W opt st).
  - reflexivity.
  - discriminate.
  - reflexivity.
Defined.

(** X14. A file that holds a bare parameter map (not a dict with a
    [state_dict] key) is good for the weight transplant but not for the
    resume: given as [load_weights], its entries are transplanted by name
    and size and nothing raises; given as [continue_model], the lookup of
    [state_dict] raises [KeyError] before any variable is assigned. *)
Theorem bare_parameter_map_not_resumable `{Externals} opt st sd :
  NoDup (st_model st).*1 →
  load_weights opt ≠ "" →
  st_files st !! load_weights opt = Some (FileStateDict sd) →
  continue_model opt ≠ "" →
  st_files st !! continue_model opt = Some (FileStateDict sd) →
  sd !! "state_dict" = None →
  (∃ m', load_pretrained opt st = (Ok tt, set_model m' st) ∧
         ∀ k, get_state_dict m' !! k = transplanted (st_model st) sd k) ∧
  continue_training opt st = (Raise (KeyError "state_dict"), st).
Proof.
  intros Hnd Hw Hfw Hc Hfc Hkey. split.
  - destruct (transplant_ok (st_model st) sd Hnd) as (m' & Htr & _ & Hlk).
    exists m'. split; [|exact Hlk].
    by apply load_pretrained_run with (f := FileStateDict sd) (pretrain_dict := sd).
  - unfold continue_training, torch_load. rewrite (nonempty_path _ Hc). run.
    rewrite Hfc. simpl. by rewrite Hkey.
Qed.

Lemma bare_parameter_map_not_resumable_witness :
  let W := toy accuracies_run in
  let opt := toy_options "w.pth" "w.pth" 30 10 in
  let st := toy_state accuracies_run opt {[ "w.pth" := @FileStateDict W toy_pretrained ]} in
  (∃ m', @load_pretrained W opt st = (Ok tt, set_model m' st) ∧
         ∀ k, get_state_dict m' !! k = transplanted (st_model st) toy_pretrained k) ∧
  @continue_training W opt st = (Raise (KeyError "state_dict"), st).
Proof.
  intros W opt st.
  apply (@bare_parameter_map_not_resumable W opt st toy_pretrained).
  - apply (bool_decide_unpack _). vm_compute. exact I.
  - discriminate.
  - vm_compute. reflexivity.
  - discriminate.
  - vm_compute. reflexivity.
  - vm_compute. reflexivity.
Defined.

(** ** The loss on padded batches, and its sign *)

Section LossFurther.
Local Open Scope R_scope.

Lemma targets_in_range_skip (K N : nat) (skip : option nat) (gold : list nat) :
  length gold = N → Forall (λ t, (t < K)%nat) gold →
  bad_targets K N skip gold = false.
Proof.
  intros Hlen Hall. unfold bad_targets. rewrite Hlen, Nat.eqb_refl. simpl.
  clear Hlen. induction Hall as [|t gold Ht _ IH]; [done|]. simpl.
  destruct (Nat.leb_spec K t); [lia|]. by rewrite andb_false_r.
Qed.

Lemma keep_where_length {A B} (l : list A) (k : list B) : ∀ mask,
  length l = length k → length (keep_where l mask) = length (keep_where k mask).
Proof.
  revert k. induction l as [|x l IH]; intros [|y k] mask Hlen; try done.
  destruct mask as [|[] mask]; simpl; [done| |]; rewrite (IH k mask); try done;
    by injection Hlen.
Qed.

Lemma keep_where_Forall {A} (P : A → Prop) (l : list A) : ∀ mask,
  Forall P l → Forall P (keep_where l mask).
Proof.
  induction l as [|x l IH]; intros mask Hall; [by destruct mask|].
  inversion Hall as [|? ? Hx Hl]; subst.
  destruct mask as [|[] mask]; simpl; [constructor| |]; auto.
Qed.

Lemma zip_with_swap {A B C} (f : A → B → C) (l : list A) : ∀ k,
  zip_with f l k = zip_with (λ y x, f x y) k l.
Proof. induction l as [|x l IH]; intros [|y k]; simpl; [done..|]. by rewrite IH. Qed.

Lemma zip_with_map_both {A A' B B' C} (h : A' → B' → C) (u : A → A') (v : B → B')
    (l : list A) : ∀ k,
  zip_with h (map u l) (map v k) = zip_with (λ x y, h (u x) (v y)) l k.
Proof. induction l as [|x l IH]; intros [|y k]; simpl; [done..|]. by rewrite IH. Qed.

Lemma zip_with_map_l {A A' B C} (h : A' → B → C) (u : A → A') (l : list A) : ∀ k,
  zip_with h (map u l) k = zip_with (λ x y, h (u x) y) l k.
Proof. induction l as [|x l IH]; intros [|y k]; simpl; [done..|]. by rewrite IH. Qed.

(** Selecting the terms of the positions that are not padding is forming
    the terms of the batch without these positions. *)
Lemma masked_select_padding {A} (f : nat → A → R) (PAD : nat) : ∀ gold (rs : list A),
  masked_select (zip_with f gold rs) (non_pad PAD gold)
  = masked_select
      (zip_with f (keep_where gold (non_pad PAD gold)) (keep_where rs (non_pad PAD gold)))
      (non_pad PAD (keep_where gold (non_pad PAD gold))).
Proof.
  induction gold as [|t gold IH]; intros [|r rs]; try done.
  - simpl. by rewrite zip_with_nil_r.
  - simpl. destruct (Nat.eqb t PAD) eqn:Ht; simpl.
    + apply IH.
    + rewrite Ht. simpl. f_equal. apply IH.
Qed.

(** X15. Positions whose target is the padding index contribute nothing to
    the loss, neither to the sum nor to the count of the mean: with or
    without smoothing, the loss of a batch is the loss of the batch without
    these positions. (One target per row, each target a class.) *)
Theorem padding_is_ignored (PAD : nat) (pred : tensor2) (gold : list nat)
    (smoothing : bool) :
  length gold = length (rows pred) →
  Forall (λ t, (t < size1 pred)%nat) gold →
  transformer_loss PAD pred gold smoothing
  = transformer_loss PAD (without_padding PAD pred gold).1
                     (without_padding PAD pred gold).2 smoothing.
Proof.
  intros Hlen Hall.
  assert (Hlen' : length (keep_where gold (non_pad PAD gold))
                  = length (keep_where (rows pred) (non_pad PAD gold)))
    by by apply keep_where_length.
  assert (Hall' : Forall (λ t, (t < size1 pred)%nat) (keep_where gold (non_pad PAD gold)))
    by by apply keep_where_Forall.
  unfold transformer_loss, cross_entropy, without_padding. cbn [fst snd size1 rows].
  rewrite !(targets_in_range_skip _ _ _ _ Hlen Hall).
  rewrite !(targets_in_range_skip _ _ _ _ Hlen' Hall').
  destruct smoothing; do 2 f_equal.
  - rewrite !zip_with_map_both, !zip_with_map_l.
    apply (masked_select_padding
             (λ t row,
                - dot (map (λ o, o * (1 - 1 / 10) + (1 - o) * (1 / 10) / (INR (size1 pred) - 1))
                           (one_hot_row (size1 pred) t))
                      (log_softmax row))).
  - rewrite (zip_with_swap _ (rows pred)), (zip_with_swap _ (keep_where (rows pred) _)).
    apply (masked_select_padding (λ t row, - nth t (log_softmax row) 0)).
Qed.

Lemma padding_is_ignored_witness :
  transformer_loss 0 (Tensor2 3 [[1; 2; 3]; [5; 5; 5]; [0; 3; 1]]%R) [1; 0; 2]%nat true
  = transformer_loss 0 (Tensor2 3 [[1; 2; 3]; [0; 3; 1]]%R) [1; 2]%nat true.
Proof.
  apply (padding_is_ignored 0 (Tensor2 3 [[1; 2; 3]; [5; 5; 5]; [0; 3; 1]]%R)
           [1; 0; 2]%nat true).
  - reflexivity.
  - repeat constructor.
Defined.

Lemma exp_le_Rsum (row : list R) (x : R) :
  In x row → 0 < Rsum (map exp row) ∧ exp x <= Rsum (map exp row).
Proof.
  assert (Hpos : ∀ l, 0 <= Rsum (map exp l)).
  { induction l as [|y l IH]; simpl; [lra|]. pose proof (exp_pos y). lra. }
  induction row as [|y row IH]; intros Hin; [done|].
  simpl. pose proof (exp_pos y). pose proof (Hpos row).
  destruct Hin as [->|Hin]; [lra|]. destruct (IH Hin). lra.
Qed.

Lemma log_softmax_nonpos (row : list R) : Forall (λ z, z <= 0) (log_softmax row).
Proof.
  unfold log_softmax. apply Forall_forall. intros z Hz.
  apply list_elem_of_In, in_map_iff in Hz as (x & <- & Hx).
  destruct (exp_le_Rsum row x Hx) as [Hpos Hle].
  pose proof (exp_pos x) as Hx0.
  assert (ln (exp x) <= ln (Rsum (map exp row))) as Hln.
  { destruct Hle as [Hlt|<-]; [|lra]. left. by apply ln_increasing. }
  rewrite ln_exp in Hln. lra.
Qed.

Lemma dot_nonpos (a : list R) : ∀ b,
  Forall (λ w, 0 <= w) a → Forall (λ z, z <= 0) b → dot a b <= 0.
Proof.
  unfold dot. induction a as [|w a IH]; intros [|z b] Ha Hb; simpl; try lra.
  inversion Ha as [|? ? Hw Ha']; inversion Hb as [|? ? Hz Hb']; subst.
  assert (w * z <= 0) by nra. pose proof (IH b Ha' Hb'). lra.
Qed.

Lemma smoothed_weights_nonneg (K t : nat) :
  (2 <= K)%nat →
  Forall (λ w, 0 <= w)
    (map (λ o, o * (1 - 1 / 10) + (1 - o) * (1 / 10) / (INR K - 1)) (one_hot_row K t)).
Proof.
  intros HK. unfold one_hot_row. rewrite map_map.
  apply Forall_forall. intros w Hw.
  apply list_elem_of_In, in_map_iff in Hw as (j & <- & _).
  assert (1 <= INR K - 1).
  { apply le_INR in HK. simpl in HK. lra. }
  assert (0 < / (INR K - 1)) by (apply Rinv_0_lt_compat; lra).
  destruct (Nat.eqb j t); unfold Rdiv; [lra|nra].
Qed.

Lemma nth_nonpos (l : list R) : ∀ t, Forall (λ z, z <= 0) l → nth t l 0 <= 0.
Proof.
  induction l as [|z l IH]; intros [|t] Hl; simpl; try lra; inversion Hl; subst; auto.
Qed.

Lemma masked_select_Forall (P : R → Prop) (l : list R) : ∀ mask,
  Forall P l → Forall P (masked_select l mask).
Proof.
  induction l as [|x l IH]; intros mask Hall; [by destruct mask|].
  inversion Hall as [|? ? Hx Hl]; subst.
  destruct mask as [|[] mask]; simpl; [constructor| |]; auto.
Qed.

Lemma mean_nonneg (l : list R) : Forall (λ x, 0 <= x) l → 0 <= mean l.
Proof.
  intros Hl. unfold mean.
  assert (0 <= Rsum l) by (induction Hl; simpl; lra).
  destruct l as [|x l].
  - unfold Rdiv. simpl. rewrite Rmult_0_l. lra.
  - apply Rmult_le_pos; [done|]. left. apply Rinv_0_lt_compat.
    apply lt_0_INR. simpl. lia.
Qed.

Lemma zip_with_Forall {A B} (P : R → Prop) (f : A → B → R) (l : list A) : ∀ k,
  (∀ x y, P (f x y)) → Forall P (zip_with f l k).
Proof.
  induction l as [|x l IH]; intros [|y k] Hf; simpl; try constructor; auto.
Qed.

Lemma returned_loss_nonneg (PAD : nat) (pred : tensor2) (gold : list nat)
    (smoothing : bool) (l : R) :
  (2 <= size1 pred)%nat →
  Exists (λ t, t ≠ PAD) gold →
  transformer_loss PAD pred gold smoothing = Ok l →
  0 <= l.
Proof.
  intros HK _. unfold transformer_loss, cross_entropy.
  destruct smoothing.
  - destruct (bad_targets _ _ None gold); [done|]. intros [= <-].
    apply mean_nonneg, masked_select_Forall.
    rewrite zip_with_map_both, zip_with_map_l. apply zip_with_Forall. intros ot row.
    pose proof (dot_nonpos _ (log_softmax row) (smoothed_weights_nonneg (size1 pred) ot HK)
                  (log_softmax_nonpos row)). lra.
  - destruct (bad_targets _ _ (Some PAD) gold); [done|]. intros [= <-].
    apply mean_nonneg, masked_select_Forall, zip_with_Forall. intros row t.
    pose proof (nth_nonpos (log_softmax row) t (log_softmax_nonpos row)). lra.
Qed.

(** X16. On a batch that has a loss the loss is not negative. For a
    prediction matrix of at least two classes, one target per row, every
    target a class and at least one target that is not the padding index,
    [transformer_loss] returns, with or without smoothing, and its value is
    at least zero. (Arithmetic over the reals. A batch whose targets are
    all the padding index is left out: the mean is then taken over no
    position.) *)
Theorem transformer_loss_nonneg (PAD : nat) (pred : tensor2) (gold : list nat)
    (smoothing : bool) :
  (2 <= size1 pred)%nat →
  Forall (λ row, length row = size1 pred) (rows pred) →
  length gold = length (rows pred) →
  Forall (λ t, (t < size1 pred)%nat) gold →
  Exists (λ t, t ≠ PAD) gold →
  ∃ l, transformer_loss PAD pred gold smoothing = Ok l ∧ 0 <= l.
Proof.
  intros HK _ Hlen Hall Hreal.
  assert (Hret : ∃ l, transformer_loss PAD pred gold smoothing = Ok l).
  { unfold transformer_loss, cross_entropy.
    rewrite !(targets_in_range_skip _ _ _ _ Hlen Hall).
    destruct smoothing; eauto. }
  destruct Hret as [l Hl]. exists l. split; [exact Hl|].
  by apply (returned_loss_nonneg PAD pred gold smoothing).
Qed.

Lemma transformer_loss_nonneg_witness :
  ∃ l, transformer_loss 0 toy_pred [0; 2]%nat true = Ok l ∧ 0 <= l.
Proof.
  apply (transformer_loss_nonneg 0 toy_pred [0; 2]%nat true).
  - simpl. lia.
  - repeat constructor.
  - reflexivity.
  - repeat constructor; simpl; lia.
  - apply Exists_cons_tl, Exists_cons_hd. discriminate.
Defined.

End LossFurther.

(** ** The sample lines of the validation log *)

Lemma is_prefix_app (p : string) : ∀ s,
  is_prefix p s = true ↔ ∃ r, s = p +:+ r.
Proof.
  induction p as [|a p IH]; intros s; simpl.
  - split; [intros _; by exists s|done].
  - destruct s as [|b s].
    + split; [done|]. by intros [r Hr].
    + destruct (Ascii.eqb_spec a b) as [->|Hne].
      * rewrite IH. split; intros [r Hr]; exists r; [by rewrite Hr|by injection Hr].
      * split; [done|]. intros [r Hr]. by injection Hr as -> _.
Qed.

Lemma str_length_app (a : string) : ∀ b,
  String.length (a +:+ b) = (String.length a + String.length b)%nat.
Proof. induction a as [|c a IH]; intros b; simpl; [done|]. by rewrite IH. Qed.

Lemma take_chars_length (n : nat) : ∀ s, (String.length (take_chars n s) <= n)%nat.
Proof.
  induction n as [|n IH]; intros [|c s]; simpl; try lia.
  specialize (IH s). lia.
Qed.

Lemma take_chars_app (a : string) : ∀ b, take_chars (String.length a) (a +:+ b) = a.
Proof. induction a as [|c a IH]; intros b; simpl; [by destruct b|]. by rewrite IH. Qed.

Lemma str_find_absent (sub : string) : ∀ s, str_in sub s = false → str_find sub s = -1.
Proof.
  induction s as [|c s IH]; simpl; intros Hin; apply orb_false_elim in Hin as [Hp Hrest].
  - by rewrite Hp.
  - rewrite Hp, (IH Hrest). reflexivity.
Qed.

(** Where the text holds the terminator, [find] gives a position at or
    before any occurrence, and the terminator stands at that position. *)
Lemma str_find_occurrence (sub : string) (a : string) : ∀ s b,
  s = a +:+ sub +:+ b →
  0 <= str_find sub s <= Z.of_nat (String.length a) ∧
  ∃ rest, s = take_chars (Z.to_nat (str_find sub s)) s +:+ sub +:+ rest.
Proof.
  induction a as [|c a IH]; intros s b ->.
  - assert (Hp : is_prefix sub ("" +:+ sub +:+ b) = true)
      by (apply is_prefix_app; by exists b).
    simpl in *. destruct sub as [|x sub]; simpl in *.
    + destruct b; simpl; (split; [lia|]); eexists; reflexivity.
    + rewrite Hp. simpl. split; [lia|]. by exists b.
  - change (String c a +:+ sub +:+ b) with (String c (a +:+ sub +:+ b)).
    remember (a +:+ sub +:+ b) as s' eqn:Hs'.
    destruct (IH s' b Hs') as [[Hlo Hhi] [rest Hrest]].
    change (str_find sub (String c s'))
      with (if is_prefix sub (String c s') then 0
            else let r := str_find sub s' in if r <? 0 then -1 else r + 1).
    destruct (is_prefix sub (String c s')) eqn:Hp.
    + split; [simpl String.length; lia|].
      apply is_prefix_app in Hp as [r Hr]. exists r. simpl. exact Hr.
    + cbv zeta. destruct (Z.ltb_spec (str_find sub s') 0) as [Hneg|_]; [lia|].
      split; [simpl String.length; lia|].
      exists rest.
      replace (Z.to_nat (str_find sub s' + 1)) with (S (Z.to_nat (str_find sub s'))) by lia.
      cbn [take_chars].
      change (String c ?x +:+ ?y) with (String c (x +:+ y)).
      f_equal. exact Hrest.
Qed.

(** X17. Where the text holds the terminator, [s[:s.find(term)]] is the
    text before the first occurrence: the text is the cut, the terminator
    and a remainder, and the cut is no longer than the text before any
    occurrence of the terminator. *)
Theorem cut_at_first_occurrence (term s a b : string) :
  s = a +:+ term +:+ b →
  (∃ rest, s = cut_at term s +:+ term +:+ rest) ∧
  (String.length (cut_at term s) <= String.length a)%nat.
Proof.
  intros Hs.
  destruct (str_find_occurrence term a s b Hs) as [[Hlo Hhi] [rest Hrest]].
  assert (Hcut : cut_at term s = take_chars (Z.to_nat (str_find term s)) s).
  { unfold cut_at, slice_to.
    destruct (Z.ltb_spec (str_find term s) 0) as [Hneg|_]; [lia|].
    f_equal. f_equal. apply Z.min_l.
    rewrite Hs at 2. rewrite str_length_app. lia. }
  rewrite Hcut. split; [by exists rest|].
  pose proof (take_chars_length (Z.to_nat (str_find term s)) s). lia.
Qed.

Lemma cut_at_first_occurrence_witness :
  (∃ rest, "ab</s>cd</s>" = cut_at "</s>" "ab</s>cd</s>" +:+ "</s>" +:+ rest) ∧
  (String.length (cut_at "</s>" "ab</s>cd</s>") <= String.length "ab</s>cd")%nat.
Proof.
  apply (cut_at_first_occurrence "</s>" "ab</s>cd</s>" "ab</s>cd" "").
  reflexivity.
Defined.

Lemma cut_at_absent (term s : string) (c : Ascii.ascii) :
  str_in term (s +:+ String c "") = false →
  cut_at term (s +:+ String c "") = s.
Proof.
  intros Hin. unfold cut_at, slice_to. rewrite (str_find_absent _ _ Hin).
  change (-1 <? 0) with true. cbv iota.
  rewrite str_length_app. simpl String.length.
  replace (Z.to_nat (Z.max 0 (-1 + Z.of_nat (String.length s + 1))))
    with (String.length s) by lia.
  apply take_chars_app.
Qed.

(** X18. A text without the terminator loses its last character in the
    log: on a Transformer run, for a prediction and a ground truth that do
    not hold [</s>], the sample line shows each without its last character
    and its flag compares these, so that two texts that differ in their
    last character only are logged as equal. *)
Theorem sample_without_terminator_loses_last_character
    (opt : options) (pred gt : string) (c d : Ascii.ascii) :
  str_in "Transformer" (SequenceModeling opt) = true →
  str_in "</s>" (pred +:+ String c "") = false →
  str_in "</s>" (gt +:+ String d "") = false →
  sample_line opt (pred +:+ String c "") (gt +:+ String d "")
  = ljust 20 pred +:+ ", gt: " +:+ ljust 20 gt +:+ ",   "
    +:+ (if String.eqb pred gt then "True" else "False").
Proof.
  intros Ht Hp Hg. unfold sample_line, shown. rewrite Ht.
  by rewrite (cut_at_absent _ _ _ Hp), (cut_at_absent _ _ _ Hg).
Qed.

Lemma sample_without_terminator_loses_last_character_witness :
  sample_line (toy_options "" "" 30 10) "cat" "car"
  = "ca                  , gt: ca                  ,   True".
Proof.
  apply (sample_without_terminator_loses_last_character
           (toy_options "" "" 30 10) "ca" "ca" _ _); reflexivity.
Defined.

(** ** Runs from the command line *)

Lemma transformer_loop_ignores_grad_clip `{Externals}
    name pred a u l b1 r e clip clip' dm nw lw cm ni vi n : ∀ i,
  loop (Options name "Transformer" pred a u l b1 r e clip dm nw lw cm ni vi) n i
  = loop (Options name "Transformer" pred a u l b1 r e clip' dm nw lw cm ni vi) n i.
Proof.
  induction n as [|n IH]; intros i; [done|].
  cbn [loop]. by rewrite IH.
Qed.

(** X19. What the command line cannot change in the training. The options
    [--experiment_name], [--SequenceModeling], [--Prediction] and
    [--valInterval] are overwritten before [train] is called: whatever
    their values, [train] receives the same options. The option
    [--grad_clip] does reach [train], which prints it with every other
    option in the dump of lines 146-156; but from the optimizer setup on
    nothing reads it on such a run, since [clip_grad_norm_] is called on
    the non-Transformer path only: the transplant, the resume, the updates,
    the validations, the checkpoints written and the outcome are the same
    whatever its value. *)
Theorem command_line_options_unused_by_training `{Externals}
    (parsed : options) (name seq pred : string) (clip : Q) (interval : Z)
    (g : rng) (m : model) (fs : gmap string saved_file) :
  main_overrides
    (Options name seq pred (adam parsed) (use_scheduled_optim parsed)
             (lr parsed) (beta1 parsed) (rho parsed) (eps parsed) (grad_clip parsed)
             (d_model parsed) (n_warmup_steps parsed) (load_weights parsed)
             (continue_model parsed) (num_iter parsed) interval)
  = main_overrides parsed ∧
  main (Options name seq pred (adam parsed) (use_scheduled_optim parsed)
                (lr parsed) (beta1 parsed) (rho parsed) (eps parsed) clip
                (d_model parsed) (n_warmup_steps parsed) (load_weights parsed)
                (continue_model parsed) (num_iter parsed) interval) g m fs
  = main parsed g m fs.
Proof.
  split; [reflexivity|].
  unfold main, train, main_overrides. cbn [adam use_scheduled_optim lr beta1 rho eps
    grad_clip d_model n_warmup_steps load_weights continue_model num_iter].
  set (o1 := Options _ _ _ _ _ _ _ _ _ clip _ _ _ _ _ _).
  set (o2 := Options _ _ _ _ _ _ _ _ _ (grad_clip parsed) _ _ _ _ _ _).
  change (initial_state o1) with (initial_state o2).
  change (prepare o1) with (prepare o2).
  unfold bind. destruct (prepare o2 _) as [[[]|e] st1]; [|done].
  unfold training_loop, bind, get.
  change (num_iter o1) with (num_iter o2).
  unfold o1, o2. apply (f_equal (λ f, f st1)).
  apply transformer_loop_ignores_grad_clip.
Qed.

(** X20. A run from the command line with no weights file and no resume
    file, and not both [--adam] and [-use_scheduled_optim], completes: it
    enters the iterations [0 .. num_iter - 1] in order and validates after
    exactly those [i > 0] with [(i + 1) mod 10 = 0], whatever
    [--valInterval] was given (zero included). *)
Theorem command_line_run `{Externals} (parsed : options) (g : rng) (m : model)
    (fs : gmap string saved_file) :
  load_weights parsed = "" →
  continue_model parsed = "" →
  adam parsed && use_scheduled_optim parsed = false →
  ∃ st', main parsed g m fs = (Ok tt, st') ∧
         iterations (st_trace st') = seqZ 0 (num_iter parsed) ∧
         (validations (st_trace st')).*1
         = filter (λ j, 0 < j ∧ (j + 1) mod 10 = 0) (seqZ 0 (num_iter parsed)).
Proof.
  intros Hlw Hcm Hflags. unfold main, train.
  set (opt := main_overrides parsed).
  set (st0 := initial_state opt (init_weights g m).1 fs).
  assert (Hprep : ∃ st1, prepare opt st0 = (Ok tt, st1) ∧ st_trace st1 = [] ∧
                         st_start_iter st1 = 0 ∧ schedule_bound opt st1).
  { unfold prepare, load_pretrained, continue_training, set_current_steps,
      schedule_bound, warmup_path, st0, initial_state, setup_optimizer, warmup_path, opt,
      main_overrides.
    cbn [adam use_scheduled_optim load_weights continue_model SequenceModeling].
    rewrite Hlw, Hcm.
    destruct (adam parsed), (use_scheduled_optim parsed); try discriminate;
      eexists; (split; [reflexivity|]); simpl; repeat split; try done; eauto. }
  destruct Hprep as (st1 & Hprep & Htr & Hstart & Hb).
  assert (Hv : valInterval opt ≠ 0) by done.
  destruct (loop_structure opt (Z.to_nat (num_iter opt - st_start_iter st1))
              (st_start_iter st1) st1 Hv Hb) as (st' & Hrun & _ & Hit & _).
  destruct (loop_run opt (Z.to_nat (num_iter opt - st_start_iter st1))
              (st_start_iter st1) st1 Hv Hb) as (st'' & Hrun' & _ & Hval).
  rewrite Hrun in Hrun'. injection Hrun' as <-.
  exists st'. split.
  - unfold bind. rewrite Hprep. unfold training_loop, bind, get. exact Hrun.
  - rewrite Hit, Hval, Htr, Hstart, seqZ_to_nat, Z.sub_0_r. done.
Qed.

Lemma command_line_run_witness :
  let W := toy accuracies_run in
  ∃ st', @main W (toy_options "" "" 25 0) 0%nat toy_model ∅ = (Ok tt, st') ∧
         iterations (st_trace st') = seqZ 0 25 ∧
         (validations (st_trace st')).*1 = [9; 19].
Proof.
  intros W.
  destruct (@command_line_run W (toy_options "" "" 25 0) 0%nat toy_model ∅)
    as (st' & Hrun & Hit & Hval); try reflexivity.
  exists st'. split; [exact Hrun|]. split; [exact Hit|]. rewrite Hval. reflexivity.
Defined.
